(** * CodeMask backend: chunk registry, authorized fetch, marker scanner,
    snippet classifier and the client loader served by the backend.

  The development follows the three source files:
  - [utils/chunkStore.js]  -> [Module ChunkStore]
  - [utils/parser.js]      -> [Module Str], [Module Regex], [Module Parser]
  - [index.js]             -> [Module Server] (GET /api/fetch) and
                              [Module Sdk] (the script served at
                              /sdk/codemask-sdk.js).

  JavaScript strings are modelled as [string]; a JS [Map] with string keys
  as a [gmap string _]. *)

From Stdlib Require Import String Ascii List Arith Lia Bool.
From stdpp Require Import base option gmap strings list fin_maps.

Local Open Scope string_scope.

(** ** utils/chunkStore.js *)

Module ChunkStore.

(** The object literal that [index.js] passes to [putChunk]:
    [{ type, name, params, body, original }].  [name] is [null] for
    unclassified snippets. *)
Record ChunkMeta := mkChunkMeta {
  type : string;
  name : option string;
  params : string;
  body : string;
  original : string
}.

(** [{ key, chunks: new Map() }] *)
Record Project := mkProject {
  key : string;
  chunks : gmap string ChunkMeta
}.

(** [const store = new Map()] *)
Abbreviation Store := (gmap string Project).

(** What a JS lookup hands back: an object, [undefined] ([Map.get] on a
    missing key) or [null]. *)
Inductive Ref (A : Type) : Type :=
| Obj (a : A)
| Undefined
| Null.
Arguments Obj {A} a.
Arguments Undefined {A}.
Arguments Null {A}.

(** JS truthiness of such a value: only an object is truthy. *)
Definition truthy {A} (r : Ref A) : bool :=
  match r with Obj _ => true | _ => false end.

(** [Map.prototype.get] *)
Definition map_get {A} (m : gmap string A) (k : string) : Ref A :=
  match m !! k with Some a => Obj a | None => Undefined end.

(** [store.set(projectId, { key, chunks: new Map() })] *)
Definition createProject (projectId key : string) (store : Store) : Store :=
  <[projectId := mkProject key ∅]> store.

(** [putChunk] throws [Error("Project not found")] ([inl]) or mutates the
    chunk table of the stored project object in place ([inr], the store
    after the call). *)
Definition putChunk (projectId chunkId : string) (chunkMeta : ChunkMeta)
    (store : Store) : string + Store :=
  match map_get store projectId with
  | Obj proj =>
      inr (<[projectId :=
               mkProject (key proj) (<[chunkId := chunkMeta]> (chunks proj))]>
             store)
  | _ => inl "Project not found"
  end.

Definition getProject (projectId : string) (store : Store) : Ref Project :=
  map_get store projectId.

Definition getChunk (projectId chunkId : string) (store : Store)
    : Ref ChunkMeta :=
  match map_get store projectId with
  | Obj proj => map_get (chunks proj) chunkId
  | _ => Null
  end.

(** The four exported registry operations, as data, so that sequences of
    calls can be quantified over. *)
Inductive Op :=
| CreateProject (projectId key : string)
| PutChunk (projectId chunkId : string) (chunkMeta : ChunkMeta)
| GetProject (projectId : string)
| GetChunk (projectId chunkId : string).

(** The store after one call; a call that throws leaves it as it was, the
    two getters never write. *)
Definition run (op : Op) (store : Store) : Store :=
  match op with
  | CreateProject p k => createProject p k store
  | PutChunk p c m =>
      match putChunk p c m store with
      | inr store' => store'
      | inl _ => store
      end
  | GetProject _ => store
  | GetChunk _ _ => store
  end.

Definition run_all (ops : list Op) (store : Store) : Store :=
  fold_left (fun s op => run op s) ops store.

(** A call is fresh when it does not name an id that is already mapped:
    [createProject] on an unused project id, [putChunk] on a chunk id unused
    within its project.  This is what the upload handler does, which draws
    every id from [nanoid]. *)
Definition fresh (op : Op) (store : Store) : bool :=
  match op with
  | CreateProject p _ => negb (truthy (getProject p store))
  | PutChunk p c _ => negb (truthy (getChunk p c store))
  | _ => true
  end.



End ChunkStore.

(** ** index.js: GET /api/fetch/:projectId/:chunkId *)

Module Server.
Import ChunkStore.

Inductive Json :=
| JBool (b : bool)
| JStr (s : string)
| JNull.

(** An Express response: status code and the fields of the JSON body in the
    order of the object literal. *)
Record Response := mkResponse {
  status : nat;
  json : list (string * Json)
}.

Definition json_of_name (n : option string) : Json :=
  match n with Some s => JStr s | None => JNull end.

(** [`(${chunk.params}) => { ${chunk.body} }`] *)
Definition funcSource (chunk : ChunkMeta) : string :=
  "(" +:+ params chunk +:+ ") => { " +:+ body chunk +:+ " }".

(** The handler.  [qkey] is [req.query.key]; [None] stands for a request
    without a string-valued [key] parameter, which [!==] never equates with
    the stored key. *)
Definition fetch (store : Store) (projectId chunkId : string)
    (qkey : option string) : Response :=
  match getProject projectId store with
  | Obj project =>
      if negb (bool_decide (qkey = Some (key project))) then
        mkResponse 403 [("error", JStr "Invalid key")]
      else
        match getChunk projectId chunkId store with
        | Obj chunk =>
            if (type chunk =? "decl") || (type chunk =? "arrow") then
              mkResponse 200
                [("ok", JBool true); ("kind", JStr "function");
                 ("name", json_of_name (name chunk));
                 ("code", JStr (funcSource chunk))]
            else
              mkResponse 200
                [("ok", JBool true); ("kind", JStr "raw");
                 ("code", JStr (original chunk))]
        | _ => mkResponse 404 [("error", JStr "Chunk not found")]
        end
  | _ => mkResponse 404 [("error", JStr "Project not found")]
  end.

End Server.

(** ** JavaScript string primitives used by utils/parser.js *)

Module Str.

Fixpoint drop (n : nat) (s : string) : string :=
  match n, s with
  | S n', String _ s' => drop n' s'
  | _, _ => s
  end.

Fixpoint take (n : nat) (s : string) : string :=
  match n, s with
  | S n', String c s' => String c (take n' s')
  | _, _ => EmptyString
  end.

(** [s.slice(a)] and [s.slice(a, b)] for non-negative indices. *)
Definition slice_from (s : string) (a : nat) : string := drop a s.
Definition slice (s : string) (a b : nat) : string := take (b - a) (drop a s).

(** First position, counted from [i], at which [pat] starts in [s]. *)
Fixpoint search (pat s : string) (i : nat) : option nat :=
  if String.prefix pat s then Some i
  else match s with
       | String _ s' => search pat s' (S i)
       | EmptyString => None
       end.

(** [s.indexOf(pat, from)]; [None] is JavaScript's [-1]. *)
Definition indexOf (s pat : string) (from : nat) : option nat :=
  let from := Nat.min from (String.length s) in
  search pat (drop from s) from.

(** [pat] is found in [s] at position [p]. *)
Definition occurs (pat s : string) (p : nat) : bool :=
  String.prefix pat (drop p s).

(** [s.includes(pat)] *)
Definition includes (s pat : string) : bool :=
  match indexOf s pat 0 with Some _ => true | None => false end.

(** White space and line terminators, as [trim] and the regular-expression
    class [\s] see them, among the code units below 256: TAB, LF, VT, FF, CR,
    SPACE and NBSP. *)
Definition is_space (c : ascii) : bool :=
  let n := N_of_ascii c in
  (N.leb 9 n && N.leb n 13) || N.eqb n 32 || N.eqb n 160.

Fixpoint trimStart (s : string) : string :=
  match s with
  | String c s' => if is_space c then trimStart s' else s
  | EmptyString => EmptyString
  end.

Fixpoint trimEnd (s : string) : string :=
  match s with
  | String c s' =>
      match trimEnd s' with
      | EmptyString => if is_space c then EmptyString else String c EmptyString
      | t => String c t
      end
  | EmptyString => EmptyString
  end.

Definition trim (s : string) : string := trimEnd (trimStart s).

End Str.

(** ** The regular expressions of [analyze]

    A backtracking matcher in continuation-passing style, with the priority
    order of ECMAScript: the left alternative first, a greedy quantifier
    tries the longest repetition first and a lazy one the shortest.  The
    three patterns of [analyze] quantify character classes only, so [Rep]
    takes a class. *)

Module Regex.
Import Str.

Inductive regex :=
| Bol                                         (* ^ *)
| Eol                                         (* $ *)
| Lit (s : string)                            (* literal text *)
| Cls (p : ascii → bool)                      (* one character of a class *)
| Rep (greedy : bool) (p : ascii → bool)      (* p* and p*? *)
| Opt (r : regex)                             (* r? *)
| Alt (r1 r2 : regex)                         (* r1|r2 *)
| Seq (r1 r2 : regex)
| Group (n : nat) (r : regex).                (* n-th capturing group *)

(** Captured groups, most recent first. *)
Definition Captures := list (nat * string).

(** Continuation: rest of the input, its position, captures so far. *)
Definition Cont := string → nat → Captures → option Captures.

Definition orelse {A} (a b : option A) : option A :=
  match a with Some _ => a | None => b end.

Fixpoint rep_greedy (p : ascii → bool) (s : string) (i : nat) (c : Captures)
    (k : Cont) : option Captures :=
  match s with
  | String a s' =>
      if p a then orelse (rep_greedy p s' (S i) c k) (k s i c) else k s i c
  | EmptyString => k s i c
  end.

Fixpoint rep_lazy (p : ascii → bool) (s : string) (i : nat) (c : Captures)
    (k : Cont) : option Captures :=
  orelse (k s i c)
    match s with
    | String a s' => if p a then rep_lazy p s' (S i) c k else None
    | EmptyString => None
    end.

(** [run inp r s i c k]: match [r] against [s], the part of the subject
    [inp] that starts at position [i]. *)
Fixpoint run (inp : string) (r : regex) (s : string) (i : nat) (c : Captures)
    (k : Cont) : option Captures :=
  match r with
  | Bol => if Nat.eqb i 0 then k s i c else None
  | Eol => match s with EmptyString => k s i c | _ => None end
  | Lit l =>
      if String.prefix l s
      then k (drop (String.length l) s) (i + String.length l) c
      else None
  | Cls p =>
      match s with
      | String a s' => if p a then k s' (S i) c else None
      | EmptyString => None
      end
  | Rep true p => rep_greedy p s i c k
  | Rep false p => rep_lazy p s i c k
  | Opt r1 => orelse (run inp r1 s i c k) (k s i c)
  | Alt r1 r2 => orelse (run inp r1 s i c k) (run inp r2 s i c k)
  | Seq r1 r2 => run inp r1 s i c (fun s' i' c' => run inp r2 s' i' c' k)
  | Group n r1 =>
      run inp r1 s i c (fun s' i' c' => k s' i' ((n, slice inp i i') :: c'))
  end.

(** Try every start position from [i] on, leftmost first. *)
Fixpoint exec_from (inp : string) (r : regex) (s : string) (i : nat)
    : option Captures :=
  orelse (run inp r s i [] (fun _ _ c => Some c))
    match s with
    | String _ s' => exec_from inp r s' (S i)
    | EmptyString => None
    end.

(** [subject.match(r)] for a pattern without the [g] flag. *)
Definition exec (r : regex) (subject : string) : option Captures :=
  exec_from subject r subject 0.

(** [m[n]]; a group that took no part in the match is [undefined]. *)
Fixpoint group (m : Captures) (n : nat) : option string :=
  match m with
  | (n', t) :: m' => if Nat.eqb n n' then Some t else group m' n
  | [] => None
  end.

(** Character classes and shorthands. *)
Definition space : ascii → bool := is_space.
Definition any : ascii → bool := fun a => is_space a || negb (is_space a).
Definition in_range (lo hi : N) (a : ascii) : bool :=
  N.leb lo (N_of_ascii a) && N.leb (N_of_ascii a) hi.
(** [[A-Za-z0-9_$]] *)
Definition ident : ascii → bool := fun a =>
  in_range 65 90 a || in_range 97 122 a || in_range 48 57 a
  || N.eqb (N_of_ascii a) 95 || N.eqb (N_of_ascii a) 36.

Definition star (p : ascii → bool) : regex := Rep true p.
Definition plus (p : ascii → bool) : regex := Seq (Cls p) (Rep true p).
Definition lazy_star (p : ascii → bool) : regex := Rep false p.
Definition lazy_plus (p : ascii → bool) : regex := Seq (Cls p) (Rep false p).

Fixpoint seq (rs : list regex) : regex :=
  match rs with
  | [] => Lit ""
  | [r] => r
  | r :: rs' => Seq r (seq rs')
  end.

End Regex.

(** ** utils/parser.js *)

Module Parser.
Import Str Regex.

(** What [analyze] returns: [{ kind, name, params, body, original }]. *)
Record Info := mkInfo {
  kind : string;
  name : option string;
  params : string;
  body : string;
  original : string
}.

(** The three patterns, written piece by piece as in the source; the blanks
    between the pieces are not part of the pattern.

    Step 1:
    ^ (?: async \s+ )? function \s+ ( [A-Za-z0-9_$]+ ) \s* \( ( [\s\S]*? ) \)
    \s* \{ ( [\s\S]*? ) \} \s* $ *)
Definition declRe : regex :=
  seq [Bol; Opt (seq [Lit "async"; plus space]); Lit "function"; plus space;
       Group 1 (plus ident); star space;
       Lit "("; Group 2 (lazy_star any); Lit ")"; star space;
       Lit "{"; Group 3 (lazy_star any); Lit "}"; star space; Eol].

(** Step 2:
    ^ (?: const | let ) \s+ ( [A-Za-z0-9_$]+ ) \s* = \s* (?: async \s* )?
    \(? ( [\s\S]*? ) \)? \s* => \s* \{ ( [\s\S]*? ) \} \s* ;? \s* $ *)
Definition arrowRe : regex :=
  seq [Bol; Alt (Lit "const") (Lit "let"); plus space;
       Group 1 (plus ident); star space; Lit "="; star space;
       Opt (seq [Lit "async"; star space]);
       Opt (Lit "("); Group 2 (lazy_star any); Opt (Lit ")"); star space;
       Lit "=>"; star space;
       Lit "{"; Group 3 (lazy_star any); Lit "}"; star space;
       Opt (Lit ";"); star space; Eol].

(** Step 3:
    ^ (?: const | let ) \s+ ( [A-Za-z0-9_$]+ ) \s* = \s* ( [\s\S]+? ) ;?
    \s* $ *)
Definition constantRe : regex :=
  seq [Bol; Alt (Lit "const") (Lit "let"); plus space;
       Group 1 (plus ident); star space; Lit "="; star space;
       Group 2 (lazy_plus any); Opt (Lit ";"); star space; Eol].

(** [m[n]] where the code goes on to call a string method on it, or writes
    [(m[n] || "")]: the text of the group, and the empty text when the group
    is undefined (which no group of the three patterns can be after a
    match). *)
Definition grp (m : Captures) (n : nat) : string := default "" (group m n).

Definition analyze (snippet : string) : Info :=
  let trimmed := trim snippet in
  match exec declRe trimmed with
  | Some decl =>
      mkInfo "decl" (Some (trim (grp decl 1))) (trim (grp decl 2))
             (trim (grp decl 3)) trimmed
  | None =>
  match exec arrowRe trimmed with
  | Some arrow =>
      mkInfo "arrow" (Some (trim (grp arrow 1))) (trim (grp arrow 2))
             (trim (grp arrow 3)) trimmed
  | None =>
  match exec constantRe trimmed with
  | Some constant =>
      mkInfo "constant" (Some (trim (grp constant 1))) "" "" trimmed
  | None => mkInfo "unknown" None "" "" trimmed
  end end end.

Definition CM_START : string := "/* CODEMASK_START */".
Definition CM_END : string := "/* CODEMASK_END */".

Definition nl : string := String "010"%char EmptyString.
Definition dq : string := String "034"%char EmptyString.

(** A template literal: its pieces, concatenated. *)
Definition template (pieces : list string) : string := String.concat "" pieces.

(** [${info.name}] inside a template literal. *)
Definition show (n : option string) : string := default "null" n.

Definition declStub (chunkId : string) (info : Info) : string :=
  template
    ["/* CODEMASKED:"; chunkId; " */"; nl;
     "async function "; show (name info); "("; params info; ") {"; nl;
     "  const fn = await window.CodeMask.load("; dq; chunkId; dq; ");"; nl;
     "  return fn.apply(this, ["; params info; "]);"; nl;
     "}"; nl;
     "/* END_CODEMASKED */"; nl].

Definition arrowStub (chunkId : string) (info : Info) : string :=
  template
    ["/* CODEMASKED:"; chunkId; " */"; nl;
     "const "; show (name info); " = async ("; params info; ") => {"; nl;
     "  const fn = await window.CodeMask.load("; dq; chunkId; dq; ");"; nl;
     "  return fn("; params info; ");"; nl;
     "};"; nl;
     "/* END_CODEMASKED */"; nl].

Definition constantStub (chunkId : string) (info : Info) : string :=
  template
    ["/* CODEMASKED:"; chunkId; " */"; nl;
     "(function(){"; nl;
     "  // Load & execute the raw constant snippet so it defines ";
       show (name info); nl;
     "  var p = window.CodeMask && window.CodeMask.load"; nl;
     "    ? window.CodeMask.load("; dq; chunkId; dq; ")"; nl;
     "    : Promise.reject(new Error("; dq;
       "CodeMask SDK not initialized before constants load"; dq; "));"; nl;
     nl;
     "  p.then(function(fn){"; nl;
     "    // SDK returns a function for 'raw' kind; call it to execute the snippet";
       nl;
     "    try { if (typeof fn === "; dq; "function"; dq;
       ") fn(); } catch(e){ console.error("; dq;
       "CodeMask constant exec error ("; chunkId; ")"; dq; ", e); }"; nl;
     "  }).catch(function(err){"; nl;
     "    console.error("; dq; "CodeMask constant load failed ("; chunkId; ")";
       dq; ", err);"; nl;
     "  });"; nl;
     "})();"; nl;
     "/* END_CODEMASKED */"; nl].

Definition unknownStub (chunkId : string) : string :=
  template
    ["/* CODEMASKED:"; chunkId; " */"; nl;
     "(function(){"; nl;
     "  var p = window.CodeMask && window.CodeMask.load"; nl;
     "    ? window.CodeMask.load("; dq; chunkId; dq; ")"; nl;
     "    : Promise.reject(new Error("; dq;
       "CodeMask SDK not initialized before unknown block load"; dq; "));"; nl;
     nl;
     "  p.then(function(fn){"; nl;
     "    try { if (typeof fn === "; dq; "function"; dq;
       ") fn(); } catch(e){ console.error("; dq;
       "CodeMask unknown exec error ("; chunkId; ")"; dq; ", e); }"; nl;
     "  }).catch(function(err){"; nl;
     "    console.error("; dq; "CodeMask unknown load failed ("; chunkId; ")";
       dq; ", err);"; nl;
     "  });"; nl;
     "})();"; nl;
     "/* END_CODEMASKED */"; nl].

(** An element of [chunks]: [{ chunkId, type, name, params, body, original }];
    everything but [chunkId] is what [index.js] hands to [putChunk]. *)
Record Chunk := mkChunk {
  chunkId : string;
  meta : ChunkStore.ChunkMeta
}.

(** The replacement text and the chunk for one classified snippet. *)
Definition replace (chunkId : string) (info : Info) : string * Chunk :=
  if kind info =? "decl" then
    (declStub chunkId info,
     mkChunk chunkId
       (ChunkStore.mkChunkMeta "decl" (name info) (params info) (body info)
          (original info)))
  else if kind info =? "arrow" then
    (arrowStub chunkId info,
     mkChunk chunkId
       (ChunkStore.mkChunkMeta "arrow" (name info) (params info) (body info)
          (original info)))
  else if kind info =? "constant" then
    (constantStub chunkId info,
     mkChunk chunkId
       (ChunkStore.mkChunkMeta "constant" (name info) "" "" (original info)))
  else
    (unknownStub chunkId,
     mkChunk chunkId (ChunkStore.mkChunkMeta "raw" None "" "" (original info))).

(** The loop variables of [transformFile]. *)
Record Loop := mkLoop {
  idx : nat;
  out : string;
  chunks : list Chunk
}.

(** What one pass through the body of the [while] loop does, entered with
    [idx < content.length]: [inl] is a [break] with the final [out] and
    [chunks], [inr] the variables at the end of the pass.  [nanoid k] is the
    text that the [k]-th call of [nanoid(8)] of this file returns; each pass
    that reaches the call has pushed one chunk per earlier call. *)
Definition pass (nanoid : nat → string) (content : string) (st : Loop)
    : (string * list Chunk) + Loop :=
  match indexOf content CM_START (idx st) with
  | None => inl (out st +:+ slice_from content (idx st), chunks st)
  | Some start =>
      let out1 := out st +:+ slice content (idx st) start in
      match indexOf content CM_END start with
      | None => inl (out1 +:+ slice_from content start, chunks st)
      | Some end_ =>
          let raw := trim (slice content (start + String.length CM_START) end_) in
          let info := analyze raw in
          let chunkId := "chunk_" +:+ nanoid (length (chunks st)) in
          let '(stub, chunk) := replace chunkId info in
          inr (mkLoop (end_ + String.length CM_END) (out1 +:+ stub)
                 (chunks st ++ [chunk]))
      end
  end.

(** [while (idx < content.length) { ... }], at most [fuel] passes. *)
Fixpoint while (nanoid : nat → string) (fuel : nat) (content : string)
    (st : Loop) : string * list Chunk :=
  match fuel with
  | 0 => (out st, chunks st)
  | S fuel' =>
      if Nat.ltb (idx st) (String.length content) then
        match pass nanoid content st with
        | inl result => result
        | inr st' => while nanoid fuel' content st'
        end
      else (out st, chunks st)
  end.

(** [transformFile(relativePath, content)], returning [(out, chunks)].  Every
    pass moves [idx] forward, so [content.length] passes are enough
    (lemma [while_fuel] below). *)
Definition transformFile (nanoid : nat → string) (relativePath content : string)
    : string * list Chunk :=
  if negb (includes content CM_START) then (content, [])
  else while nanoid (String.length content) content (mkLoop 0 "" []).

(** No end marker of [content] has a character at position [p] or later:
    none starts at a position from which it would reach [p]. *)
Definition ends_before (content : string) (p : nat) : bool :=
  match indexOf content CM_END (p + 1 - String.length CM_END) with
  | None => true
  | Some _ => false
  end.

(** A start marker stands at [p], none stands further on, and no end marker
    is found from [p] on. *)
Definition last_start_unmatched (content : string) (p : nat) : Prop :=
  occurs CM_START content p = true
  ∧ indexOf content CM_START (S p) = None
  ∧ indexOf content CM_END p = None.

(** The values that the loop variables take at the top of the loop: those
    set before the loop, and those left by a pass that did not [break]. *)
Inductive reaches (nanoid : nat → string) (content : string) : Loop → Prop :=
| reaches_entry : reaches nanoid content (mkLoop 0 "" [])
| reaches_pass (st st' : Loop) :
    reaches nanoid content st →
    Nat.ltb (idx st) (String.length content) = true →
    pass nanoid content st = inr st' →
    reaches nanoid content st'.

End Parser.

(** ** index.js: the loader script served at /sdk/codemask-sdk.js

    The script runs in the browser, single-threaded.  [init] and the
    synchronous prefix of every queued closure run to completion inside the
    call of [init]; what the closure does leaves a trace of events in program
    order.  A whole [_loadImpl], from its call to the settlement of its
    promise, is modelled as one step that is handed the network's answer;
    that is how two loads behave when the second is issued after the first
    has settled. *)

Module Sdk.

(** [r.json()]'s value, as far as [_loadImpl] reads it. *)
Record Payload := mkPayload {
  kind : string;
  code : string
}.

(** How [await fetch(url)] and [await r.json()] turn out. *)
Inductive FetchResult :=
| NetworkError                                  (* fetch rejects *)
| Reply (ok : bool) (data : option Payload).    (* data = None: not JSON *)

(** Effects that reach outside the closure. *)
Inductive Event :=
| ReadyResolved                 (* _resolveReady() *)
| WaiterCalled (chunkId : string)   (* fn() on a queued closure *)
| Fetch (url : string)          (* fetch(url) *)
| Dispatched (name : string)    (* window.dispatchEvent(new Event(name)) *)
| StateExposed.                 (* window.CodeMask._state = state *)

(** The argument of [init]. *)
Record Opts := mkOpts {
  opts_baseUrl : string;
  opts_projectId : string;
  opts_key : string
}.

Section Loader.

(** Values that compiled code evaluates to; [new Function(src)], which throws
    on text that does not parse; the call of such a function without
    arguments, which may throw; and [encodeURIComponent]. *)
Context {Value : Type}.
Variable newFunction : string → option Value.
Variable call : Value → option Value.
Variable encodeURIComponent : string → string.

(** [const state = { baseUrl, projectId, key, cache: new Map() }] *)
Record State := mkState {
  baseUrl : string;
  projectId : string;
  key : string;
  cache : gmap string Value
}.

(** The variables of the closure.  A queued closure differs from another
    only in the [chunkId] it captured, so [waiters] lists chunk ids.
    [exposed] says whether [window.CodeMask._state] refers to [state]. *)
Record Loader := mkLoader {
  state : State;
  initialized : bool;
  waiters : list string;
  readyResolved : bool;
  exposed : bool
}.

(** The closure right after the script has run. *)
Definition initial : Loader :=
  mkLoader (mkState "" "" "" ∅) false [] false false.

Inductive Outcome :=
| Returned (v : Value)      (* the promise is fulfilled with v *)
| LoadError (msg : string)  (* rejected with new Error(msg) *)
| Threw.                    (* rejected by fetch, json() or the compiler *)

Definition url (st : State) (chunkId : string) : string :=
  baseUrl st +:+ "/api/fetch/" +:+ projectId st +:+ "/" +:+ chunkId
  +:+ "?key=" +:+ encodeURIComponent (key st).

(** [_loadImpl(chunkId)] run to the settlement of its promise; [net] is what
    the network answers to a URL. *)
Definition _loadImpl (net : string → FetchResult) (chunkId : string)
    (st : State) : State * list Event * Outcome :=
  match cache st !! chunkId with
  | Some v => (st, [], Returned v)
  | None =>
      let u := url st chunkId in
      match net u with
      | NetworkError => (st, [Fetch u], Threw)
      | Reply false _ =>
          (st, [Fetch u], LoadError ("Failed to load chunk " +:+ chunkId))
      | Reply true None => (st, [Fetch u], Threw)
      | Reply true (Some data) =>
          if kind data =? "function" then
            match newFunction ("return " +:+ code data) ≫= call with
            | Some fn =>
                (mkState (baseUrl st) (projectId st) (key st)
                   (<[chunkId := fn]> (cache st)),
                 [Fetch u], Returned fn)
            | None => (st, [Fetch u], Threw)
            end
          else
            match newFunction (code data) with
            | Some fn => (st, [Fetch u], Returned fn)
            | None => (st, [Fetch u], Threw)
            end
      end
  end.

(** [load(chunkId)]: on an initialized loader the outcome of [_loadImpl]; on
    an uninitialized one a closure is pushed and the promise stays pending
    ([None]). *)
Definition load (net : string → FetchResult) (chunkId : string) (l : Loader)
    : Loader * list Event * option Outcome :=
  if initialized l then
    let '(st', evs, o) := _loadImpl net chunkId (state l) in
    (mkLoader st' true (waiters l) (readyResolved l) (exposed l), evs, Some o)
  else
    (mkLoader (state l) false (waiters l ++ [chunkId]) (readyResolved l)
       (exposed l),
     [], None).

(** What [fn()] does on a queued closure before it first suspends: it enters
    [_loadImpl], which returns at once on a cache hit and otherwise calls
    [fetch(url)] and waits. *)
Definition start (st : State) (chunkId : string) : list Event :=
  WaiterCalled chunkId ::
  match cache st !! chunkId with
  | Some _ => []
  | None => [Fetch (url st chunkId)]
  end.

(** [init(opts)], statement by statement. *)
Definition init (opts : Opts) (l : Loader) : Loader * list Event :=
  let st := mkState (opts_baseUrl opts) (opts_projectId opts) (opts_key opts)
              (cache (state l)) in
  let queued := waiters l in
  (mkLoader st true [] true true,
   ([ReadyResolved]
    ++ flat_map (start st) queued
    ++ [Dispatched "CodeMaskReady"; StateExposed])%list).

(** [load] called on each id of a list, in order, with nothing in between. *)
Fixpoint loads (net : string → FetchResult) (ids : list string) (l : Loader)
    : Loader :=
  match ids with
  | [] => l
  | id :: ids' => loads net ids' (load net id l).1.1
  end.

End Loader.

(** The three readiness signals of [init]. *)
Definition is_signal (e : Event) : bool :=
  match e with
  | ReadyResolved | Dispatched _ | StateExposed => true
  | _ => false
  end.

(** The events by which a queued request is flushed. *)
Definition is_flush (e : Event) : bool :=
  match e with
  | WaiterCalled _ | Fetch _ => true
  | _ => false
  end.

(** In a trace, every readiness signal comes before every flush event. *)
Definition signals_before_flush (tr : list Event) : Prop :=
  ∀ i j e f, tr !! i = Some e → tr !! j = Some f →
    is_signal e = true → is_flush f = true → i < j.

(** The chunk ids of the closures called in a trace, in order. *)
Definition called (tr : list Event) : list string :=
  flat_map (fun e => match e with WaiterCalled c => [c] | _ => [] end) tr.

Definition is_fetch (e : Event) : bool :=
  match e with Fetch _ => true | _ => false end.

(** The number of network requests in a trace. *)
Definition fetches (tr : list Event) : nat :=
  length (List.filter is_fetch tr).

End Sdk.

(** ** Sample data *)

Module Demo.
Import ChunkStore.

(** The chunk of a masked [function foo(x){ return x*2; }]. *)
Definition demo_chunk : ChunkMeta :=
  mkChunkMeta "decl" (Some "foo") "x" "return x*2;"
    "function foo(x){ return x*2; }".

(** The chunk of a masked [const TABLE = [1,2,3];]. *)
Definition raw_chunk : ChunkMeta :=
  mkChunkMeta "constant" (Some "TABLE") "" "" "const TABLE = [1,2,3];".

(** A store with one project ["p"], key ["k"], holding the chunk ["c"]. *)
Definition demo_store : Store :=
  run_all [CreateProject "p" "k"; PutChunk "p" "c" demo_chunk] ∅.


(** Ids handed out by [nanoid]. *)
Definition demo_ids (k : nat) : string :=
  match k with 0 => "aaaaaaaa" | 1 => "bbbbbbbb" | _ => "cccccccc" end.

(** A file with one marker pair and then a start marker without its end
    marker. *)
Definition demo_text : string :=
  "abc /* CODEMASK_START */ function f(a){return a;} /* CODEMASK_END */ def /* CODEMASK_START */ tail".

(** A file in which an end marker runs into a start marker: the last
    character of the one is the first of the other. *)
Definition overlap_text : string :=
  "/* CODEMASK_START */x/* CODEMASK_END */* CODEMASK_START */y".

(** A file that begins with an end marker running into a start marker; no
    start marker stands before the end marker. *)
Definition stray_end_text : string :=
  "/* CODEMASK_END */* CODEMASK_START */ b".

(** The loop variables of [transformFile] on [demo_text] after the first
    pass. *)
Definition demo_loop : Parser.Loop :=
  match Parser.pass demo_ids demo_text (Parser.mkLoop 0 "" []) with
  | inr st => st
  | inl _ => Parser.mkLoop 0 "" []
  end.

(** A browser for the loader: a compiled value is represented by its source
    text, every text compiles, every call returns, and the key needs no
    escaping. *)
Definition compile (src : string) : option string := Some src.
Definition invoke (v : string) : option string := Some v.
Definition encode (s : string) : string := s.

Definition demo_opts : Sdk.Opts := Sdk.mkOpts "http://localhost:5050" "p" "k".

(** A server that answers every request with a function, and one that
    answers with raw text. *)
Definition function_net (u : string) : Sdk.FetchResult :=
  Sdk.Reply true (Some (Sdk.mkPayload "function" "(x) => { return x*2; }")).
Definition raw_net (u : string) : Sdk.FetchResult :=
  Sdk.Reply true (Some (Sdk.mkPayload "raw" "const TABLE = [1,2,3];")).

(** A loader on which [load] was called for c1 and then c2 before [init]. *)
Definition queued_loader : @Sdk.Loader string :=
  Sdk.loads compile invoke encode function_net ["c1"; "c2"] Sdk.initial.

(** A loader after [init], nothing queued, nothing cached. *)
Definition ready_loader : @Sdk.Loader string :=
  (Sdk.init encode demo_opts Sdk.initial).1.

End Demo.

(** ** utils/parser.js: processFiles; index.js: POST /api/mask, the part
    that fills the registry *)

Module Upload.
Import ChunkStore.

(** [{ relativePath, content }]; the content is a Buffer on the way in and a
    string on the way out. *)
Record File (C : Type) := mkFile {
  relativePath : string;
  content : C
}.
Arguments mkFile {C} _ _.
Arguments relativePath {C} _.
Arguments content {C} _.

(** The extensions that [processFiles] transforms. *)
Definition maybeText (ext : string) : bool :=
  (ext =? ".js") || (ext =? ".jsx") || (ext =? ".ts") || (ext =? ".tsx")
  || (ext =? ".mjs").

Section Files.

(** Node's [Buffer] with [toString("utf8")], [path.extname] and
    [String.prototype.toLowerCase] are taken as given. *)
Context {Buffer : Type}.
Variable toString : Buffer → string.
Variable extname : string → string.
Variable toLowerCase : string → string.

(** The [for] loop of [processFiles] with its two arrays.  [nanoid k] is the
    text returned by the [k]-th call of [nanoid(8)] during this upload; every
    chunk pushed so far has used up one call. *)
Fixpoint processLoop (nanoid : nat → string) (files : list (File Buffer))
    (processedFiles : list (File string)) (chunks : list Parser.Chunk)
    : list (File string) * list Parser.Chunk :=
  match files with
  | [] => (processedFiles, chunks)
  | f :: files' =>
      let ext := toLowerCase (extname (relativePath f)) in
      if negb (maybeText ext) then
        processLoop nanoid files'
          (processedFiles ++ [mkFile (relativePath f) (toString (content f))])
          chunks
      else
        let original := toString (content f) in
        let '(out, fileChunks) :=
          Parser.transformFile (fun k => nanoid (length chunks + k))
            (relativePath f) original in
        processLoop nanoid files'
          (processedFiles ++ [mkFile (relativePath f) out])
          (chunks ++ fileChunks)
  end.

(** A file that is not of a transformed extension, or whose text has no
    start marker. *)
Definition untouched (f : File Buffer) : Prop :=
  maybeText (toLowerCase (extname (relativePath f))) = false
  ∨ Str.includes (toString (content f)) Parser.CM_START = false.

Definition processFiles (nanoid : nat → string) (files : list (File Buffer))
    : list (File string) * list Parser.Chunk :=
  processLoop nanoid files [] [].

(** [for (const c of chunks) putChunk(projectId, c.chunkId, {...})]; the
    object literal holds the fields of [c] other than [chunkId].  [inl] is
    the message of the error thrown by [putChunk]. *)
Fixpoint putChunks (projectId : string) (chunks : list Parser.Chunk)
    (store : Store) : string + Store :=
  match chunks with
  | [] => inr store
  | c :: chunks' =>
      match putChunk projectId (Parser.chunkId c) (Parser.meta c) store with
      | inr store' => putChunks projectId chunks' store'
      | inl e => inl e
      end
  end.

(** The registry after the upload handler has run [createProject],
    [processFiles] and the [putChunk] loop, for the [projectId] and [envKey]
    drawn by [nanoid(10)] and [nanoid(20)]. *)
Definition register (projectId envKey : string) (nanoid : nat → string)
    (files : list (File Buffer)) (store : Store) : string + Store :=
  putChunks projectId (processFiles nanoid files).2
    (createProject projectId envKey store).

End Files.

End Upload.

(** ** Marked documents

    A source text seen as its pieces: the marker pairs, each with the
    verbatim text before it and the fragment inside it, and the text after
    the last pair. *)

Module Doc.
Import Str Parser.

Fixpoint doc (segs : list (string * string)) (tail : string) : string :=
  match segs with
  | [] => tail
  | (pre, frag) :: segs' =>
      pre +:+ CM_START +:+ frag +:+ CM_END +:+ doc segs' tail
  end.

(** The pieces are the ones a reader sees: in what is left of the text, the
    first start marker is the one after [pre], and the first end marker from
    it on is the one after [frag]; the tail has no start marker. *)
Fixpoint well_marked (segs : list (string * string)) (tail : string) : Prop :=
  match segs with
  | [] => includes tail CM_START = false
  | (pre, frag) :: segs' =>
      indexOf (doc segs tail) CM_START 0 = Some (String.length pre)
      ∧ indexOf (doc segs tail) CM_END (String.length pre)
        = Some (String.length pre + String.length CM_START
                + String.length frag)
      ∧ well_marked segs' tail
  end.

(** The masked text and the chunks, piece by piece: each verbatim text as it
    is, each pair replaced by the stub of its classified, trimmed fragment,
    with the ids that [nanoid] hands out in order. *)
Fixpoint masked (nanoid : nat → string) (segs : list (string * string))
    (tail : string) : string * list Chunk :=
  match segs with
  | [] => (tail, [])
  | (pre, frag) :: segs' =>
      let sc := replace ("chunk_" +:+ nanoid 0) (analyze (trim frag)) in
      let r := masked (fun k => nanoid (S k)) segs' tail in
      (pre +:+ sc.1 +:+ r.1, sc.2 :: r.2)
  end.

End Doc.

(** ** Texts whose characters all have a property *)

Module Chars.

Fixpoint every (p : ascii → bool) (s : string) : bool :=
  match s with
  | String a s' => p a && every p s'
  | EmptyString => true
  end.

(** Any character but [c]. *)
Definition other_than (c : ascii) (a : ascii) : bool := negb (Ascii.eqb a c).

End Chars.

(** ** Sequences of calls on the loader *)

Module SdkRuns.
Import Sdk.

(** A request that [_loadImpl] has sent and whose answer it awaits: the
    chunk id it was called with and the URL it built before [fetch]. *)
Record Request := mkRequest {
  req_chunkId : string;
  req_url : string
}.

(** A call of [init(opts)]; a call of [load(chunkId)]; or the arrival of the
    answer to the [n]-th request that is under way. *)
Inductive Call :=
| CallInit (opts : Opts)
| CallLoad (chunkId : string)
| Settle (answer : FetchResult) (n : nat).

Section Runs.
Context {Value : Type}.
Variable newFunction : string → option Value.
Variable call : Value → option Value.
Variable encodeURIComponent : string → string.

(** The closure together with the requests under way. *)
Record Run := mkRun {
  loader : @Loader Value;
  inflight : list Request
}.

(** [_loadImpl(chunkId)] up to [await fetch(url)]: on a cache hit it returns
    without a request, otherwise it sends one. *)
Definition enter (st : @State Value) (chunkId : string) : list Request :=
  match cache st !! chunkId with
  | Some _ => []
  | None => [mkRequest chunkId (url encodeURIComponent st chunkId)]
  end.

(** [_loadImpl(chunkId)] from the answer on: only a function that compiles
    and runs is stored, in the cache of the one [state] object as it is by
    then; every other answer leaves the state as it is. *)
Definition settled (answer : FetchResult) (chunkId : string)
    (st : @State Value) : @State Value :=
  match answer with
  | Reply true (Some data) =>
      if kind data =? "function" then
        match newFunction ("return " +:+ code data) ≫= call with
        | Some fn =>
            mkState (baseUrl st) (projectId st) (key st)
              (<[chunkId := fn]> (cache st))
        | None => st
        end
      else st
  | _ => st
  end.

(** [init] calls the queued closures, each of which enters [_loadImpl] with
    the settings just written; [load] enters [_loadImpl] at once on an
    initialized loader and queues a closure otherwise. *)
Definition step (cl : Call) (r : Run) : Run :=
  let l := loader r in
  match cl with
  | CallInit opts =>
      let l' := (init encodeURIComponent opts l).1 in
      mkRun l' (inflight r ++ flat_map (enter (state l')) (waiters l))
  | CallLoad chunkId =>
      if initialized l then
        mkRun l (inflight r ++ enter (state l) chunkId)
      else
        mkRun (mkLoader (state l) false (waiters l ++ [chunkId])
                 (readyResolved l) (exposed l))
          (inflight r)
  | Settle answer n =>
      match inflight r !! n with
      | Some rq =>
          mkRun (mkLoader (settled answer (req_chunkId rq) (state l))
                   (initialized l) (waiters l) (readyResolved l) (exposed l))
            (delete n (inflight r))
      | None => r
      end
  end.

(** The closure and the requests under way after a sequence of calls and
    answers on the freshly loaded script. *)
Definition after (calls : list Call) : Run :=
  fold_left (fun r cl => step cl r) calls (mkRun initial []).

End Runs.

End SdkRuns.

(** ** Sample upload *)

Module Samples.

(** Ids that never repeat: the [k]-th is [k] times the letter a. *)
Definition unary_ids (k : nat) : string :=
  String.string_of_list_ascii (repeat "a"%char k).

(** An upload of a script with one marker pair and a style sheet; file
    contents are given as their text, and the extension is whatever follows
    the last dot of these two names. *)
Definition demo_files : list (Upload.File string) :=
  [Upload.mkFile "main.js"
     "a(); /* CODEMASK_START */ function f(a){return a;} /* CODEMASK_END */";
   Upload.mkFile "style.css" "body { /* CODEMASK_START */ }"].
Definition demo_extname (p : string) : string :=
  if (p =? "main.js")%string then ".js" else ".css".
Definition same (s : string) : string := s.

(** Two loads, one before [init] and one after it, each answered with a
    function. *)
Definition demo_calls : list SdkRuns.Call :=
  [SdkRuns.CallLoad "c1";
   SdkRuns.CallInit Demo.demo_opts;
   SdkRuns.Settle (Demo.function_net "") 0;
   SdkRuns.CallLoad "c2";
   SdkRuns.Settle (Demo.function_net "") 0].

End Samples.

(** * Properties *)

(** ** Chunk registry *)

Section RegistryFacts.
Import ChunkStore.

Lemma map_get_Obj {A} (m : gmap string A) k a :
  map_get m k = Obj a ↔ m !! k = Some a.
Proof.
  unfold map_get. destruct (m !! k); split; intros H;
    first [by inversion H | by simplify_eq].
Qed.





End RegistryFacts.

Section RegistryClaims.
Import ChunkStore Server Demo.

(** C1.  For every stored project and every chunk id, stored or not, a fetch
    whose supplied key differs from the project's key is answered
    403 [{error: "Invalid key"}]: the key is compared once the project is
    found and before the chunk is looked up, so the answer is never
    "Chunk not found". *)
Theorem fetch_wrong_key_forbidden (store : Store) (projectId chunkId : string)
    (qkey : option string) (project : Project) :
  store !! projectId = Some project →
  qkey ≠ Some (key project) →
  fetch store projectId chunkId qkey
  = mkResponse 403 [("error", JStr "Invalid key")].
Proof.
  intros Hp Hk. unfold fetch, getProject, map_get. rewrite Hp.
  by rewrite bool_decide_eq_false_2.
Qed.

Lemma fetch_wrong_key_forbidden_witness :
  fetch demo_store "p" "c" (Some "bad")
  = mkResponse 403 [("error", JStr "Invalid key")]
  ∧ fetch demo_store "p" "no_such_chunk" None
  = mkResponse 403 [("error", JStr "Invalid key")].
Proof.
  split.
  - apply (fetch_wrong_key_forbidden demo_store "p" "c" (Some "bad")
             (mkProject "k" {["c" := demo_chunk]})).
    + vm_compute. reflexivity.
    + discriminate.
  - apply (fetch_wrong_key_forbidden demo_store "p" "no_such_chunk" None
             (mkProject "k" {["c" := demo_chunk]})).
    + vm_compute. reflexivity.
    + discriminate.
Defined.

(** C2.  With the right key, a stored chunk of type "decl" or "arrow" with
    name [n], params [p] and body [b] is answered
    200 [{ok: true, kind: "function", name: n, code: "(p) => { b }"}], and a
    stored chunk of type "constant" or "raw" is answered
    200 [{ok: true, kind: "raw", code: original}] with no [name] field.  The
    chunk foo / x / return x*2; gives the code "(x) => { return x*2; }". *)
Theorem fetch_success_shape (store : Store) (projectId chunkId : string)
    (project : Project) (chunk : ChunkMeta) :
  store !! projectId = Some project →
  chunks project !! chunkId = Some chunk →
  (∀ n, (type chunk = "decl" ∨ type chunk = "arrow") → name chunk = Some n →
     fetch store projectId chunkId (Some (key project))
     = mkResponse 200
         [("ok", JBool true); ("kind", JStr "function"); ("name", JStr n);
          ("code", JStr ("(" +:+ params chunk +:+ ") => { " +:+ body chunk
                         +:+ " }"))])
  ∧ ((type chunk = "constant" ∨ type chunk = "raw") →
     fetch store projectId chunkId (Some (key project))
     = mkResponse 200
         [("ok", JBool true); ("kind", JStr "raw");
          ("code", JStr (original chunk))])
  ∧ (chunk = demo_chunk →
     fetch store projectId chunkId (Some (key project))
     = mkResponse 200
         [("ok", JBool true); ("kind", JStr "function"); ("name", JStr "foo");
          ("code", JStr "(x) => { return x*2; }")]).
Proof.
  intros Hp Hc.
  assert (Hf : fetch store projectId chunkId (Some (key project))
          = if (type chunk =? "decl") || (type chunk =? "arrow") then
              mkResponse 200
                [("ok", JBool true); ("kind", JStr "function");
                 ("name", json_of_name (name chunk));
                 ("code", JStr (funcSource chunk))]
            else
              mkResponse 200
                [("ok", JBool true); ("kind", JStr "raw");
                 ("code", JStr (original chunk))]).
  { unfold fetch, getProject, getChunk, map_get. rewrite Hp, Hc.
    by rewrite bool_decide_eq_true_2. }
  rewrite Hf. split; [|split].
  - intros n [Ht|Ht] Hn; rewrite Ht, Hn; reflexivity.
  - intros [Ht|Ht]; rewrite Ht; reflexivity.
  - intros ->. reflexivity.
Qed.

Lemma fetch_success_shape_witness :
  fetch demo_store "p" "c" (Some "k")
  = mkResponse 200
      [("ok", JBool true); ("kind", JStr "function"); ("name", JStr "foo");
       ("code", JStr "(x) => { return x*2; }")]
  ∧ fetch (run (PutChunk "p" "t" raw_chunk) demo_store) "p" "t" (Some "k")
  = mkResponse 200
      [("ok", JBool true); ("kind", JStr "raw");
       ("code", JStr "const TABLE = [1,2,3];")].
Proof.
  split.
  - refine (proj1 (fetch_success_shape demo_store "p" "c"
                     (mkProject "k" {["c" := demo_chunk]}) demo_chunk _ _)
              "foo" _ _).
    + vm_compute. reflexivity.
    + vm_compute. reflexivity.
    + left. reflexivity.
    + reflexivity.
  - refine (proj1 (proj2 (fetch_success_shape
                     (run (PutChunk "p" "t" raw_chunk) demo_store) "p" "t"
                     (mkProject "k" (<["t" := raw_chunk]> {["c" := demo_chunk]}))
                     raw_chunk _ _)) _).
    + vm_compute. reflexivity.
    + vm_compute. reflexivity.
    + left. reflexivity.
Defined.




(** C10.  [createProject] has no failing path: on every registry, the id is
    afterwards mapped to a project with the supplied key and an empty chunk
    table.  On an id that was mapped already, the old key is gone, every
    chunk stored under it is out of reach of [getChunk], and a fetch with the
    old key is refused. *)
Theorem createProject_replaces (store : Store) (projectId key' : string) :
  getProject projectId (createProject projectId key' store)
  = Obj (mkProject key' ∅)
  ∧ (∀ chunkId,
       getChunk projectId chunkId (createProject projectId key' store)
       = Undefined)
  ∧ (∀ old chunkId,
       store !! projectId = Some old → key old ≠ key' →
       fetch (createProject projectId key' store) projectId chunkId
         (Some (key old))
       = mkResponse 403 [("error", JStr "Invalid key")]).
Proof.
  assert (Hl : createProject projectId key' store !! projectId
               = Some (mkProject key' ∅))
    by apply lookup_insert_eq.
  split; [|split].
  - by apply map_get_Obj.
  - intros chunkId. unfold getChunk, map_get. rewrite Hl. simpl.
    by rewrite lookup_empty.
  - intros old chunkId _ Hne. unfold fetch, getProject, map_get.
    rewrite Hl. simpl. rewrite bool_decide_eq_false_2; [done|]. congruence.
Qed.

Lemma createProject_replaces_witness :
  getChunk "p" "c" demo_store = Obj demo_chunk
  ∧ getChunk "p" "c" (createProject "p" "k2" demo_store) = Undefined
  ∧ fetch (createProject "p" "k2" demo_store) "p" "c" (Some "k")
    = mkResponse 403 [("error", JStr "Invalid key")].
Proof.
  split; [vm_compute; reflexivity|]. split.
  - apply (proj1 (proj2 (createProject_replaces demo_store "p" "k2"))).
  - apply (proj2 (proj2 (createProject_replaces demo_store "p" "k2"))
             (mkProject "k" {["c" := demo_chunk]}) "c").
    + vm_compute. reflexivity.
    + discriminate.
Defined.

End RegistryClaims.

(** ** String primitives *)

Local Open Scope nat_scope.

Section StringFacts.
Import Str.

Lemma take_drop (n : nat) (s : string) : take n s +:+ drop n s = s.
Proof.
  revert s. induction n as [|n IH]; intros [|c s]; try done.
  change (String c (take n s +:+ drop n s) = String c s). by rewrite IH.
Qed.

Lemma drop_drop (a b : nat) (s : string) : drop a (drop b s) = drop (b + a) s.
Proof.
  revert s. induction b as [|b IH]; intros s; simpl; [done|].
  destruct s as [|c s]; simpl; [by destruct a|]. apply IH.
Qed.

Lemma length_drop (n : nat) (s : string) :
  String.length (drop n s) = String.length s - n.
Proof.
  revert s. induction n as [|n IH]; intros [|c s]; simpl; auto.
Qed.

Lemma drop_0 (s : string) : drop 0 s = s.
Proof. by destruct s. Qed.

(** The text up to a later position followed by the text from it is the text
    from the earlier position. *)
Lemma slice_slice_from (s : string) (a b : nat) :
  a ≤ b → slice s a b +:+ slice_from s b = slice_from s a.
Proof.
  intros Hab. unfold slice, slice_from.
  replace (drop b s) with (drop (b - a) (drop a s)).
  - apply take_drop.
  - rewrite drop_drop. f_equal. lia.
Qed.

Lemma prefix_length (p s : string) :
  String.prefix p s = true → String.length p ≤ String.length s.
Proof.
  revert s. induction p as [|a p IH]; intros s H; simpl; [lia|].
  destruct s as [|b s]; simpl in *; [done|].
  destruct (ascii_dec a b); [|done]. apply IH in H. lia.
Qed.

Lemma search_bounds (pat s : string) (i j : nat) :
  search pat s i = Some j →
  i ≤ j ∧ (j - i) + String.length pat ≤ String.length s.
Proof.
  revert i. induction s as [|c s IH]; intros i; cbn [search].
  - destruct (String.prefix pat "") eqn:Hp; [|done].
    intros [= <-]. apply prefix_length in Hp. simpl in Hp. lia.
  - destruct (String.prefix pat (String c s)) eqn:Hp.
    + intros [= <-]. apply prefix_length in Hp.
      change (String.length (String c s)) with (S (String.length s)) in *. lia.
    + intros H. apply IH in H.
      change (String.length (String c s)) with (S (String.length s)). lia.
Qed.

Lemma search_found_anywhere (pat s : string) (i i' : nat) :
  is_Some (search pat s i) → is_Some (search pat s i').
Proof.
  revert i i'. induction s as [|c s IH]; intros i i'; cbn [search].
  - destruct (String.prefix pat ""); [eauto|]. by intros [? ?].
  - destruct (String.prefix pat (String c s)); [eauto|]. apply IH.
Qed.

Lemma search_drop (pat s : string) (n i i' : nat) :
  is_Some (search pat (drop n s) i) → is_Some (search pat s i').
Proof.
  revert s i'. induction n as [|n IH]; intros s i'.
  - rewrite drop_0. apply search_found_anywhere.
  - destruct s as [|c s]; simpl drop; [apply search_found_anywhere|].
    intros H. cbn [search].
    destruct (String.prefix pat (String c s)); [eauto|]. by eapply IH.
Qed.

(** A found position is not before the start of the search (capped at the
    length) and leaves room for the whole pattern. *)
Lemma indexOf_bounds (s pat : string) (from j : nat) :
  indexOf s pat from = Some j →
  Nat.min from (String.length s) ≤ j ∧
  j + String.length pat ≤ String.length s.
Proof.
  unfold indexOf. intros H. apply search_bounds in H.
  rewrite length_drop in H. lia.
Qed.

Lemma append_assoc (a b c : string) : (a +:+ b) +:+ c = a +:+ (b +:+ c).
Proof.
  induction a as [|x a IH]; [done|].
  change (String x ((a +:+ b) +:+ c) = String x (a +:+ (b +:+ c))).
  by rewrite IH.
Qed.

(** [search] returns a position at which the pattern is found. *)
Lemma search_occurs (pat s : string) (i j : nat) :
  search pat s i = Some j → String.prefix pat (drop (j - i) s) = true.
Proof.
  revert i. induction s as [|c s IH]; intros i; cbn [search].
  - destruct (String.prefix pat "") eqn:Hp; [|done]. intros _.
    by destruct (j - i).
  - destruct (String.prefix pat (String c s)) eqn:Hp.
    + intros [= <-]. by rewrite Nat.sub_diag.
    + intros H. pose proof (search_bounds _ _ _ _ H) as [Hle _].
      apply IH in H. replace (j - i) with (S (j - S i)) by lia. exact H.
Qed.

(** [search] returns the first such position. *)
Lemma search_min (pat s : string) (i d : nat) :
  String.prefix pat (drop d s) = true →
  ∃ j, search pat s i = Some j ∧ j ≤ i + d.
Proof.
  revert i d. induction s as [|c s IH]; intros i d Hd; cbn [search].
  - replace (drop d "") with "" in Hd by (by destruct d). rewrite Hd.
    exists i. split; [done|lia].
  - destruct (String.prefix pat (String c s)) eqn:Hp.
    + exists i. split; [done|lia].
    + destruct d as [|d]; [rewrite drop_0 in Hd; congruence|].
      destruct (IH (S i) d Hd) as (j & Hj & Hle). exists j. split; [done|lia].
Qed.

Lemma indexOf_occurs (s pat : string) (from j : nat) :
  indexOf s pat from = Some j → occurs pat s j = true.
Proof.
  unfold indexOf, occurs. intros H.
  pose proof (search_bounds _ _ _ _ H) as [Hle _].
  apply search_occurs in H. rewrite drop_drop in H.
  by replace (Nat.min from (String.length s)
              + (j - Nat.min from (String.length s))) with j in H by lia.
Qed.

Lemma indexOf_min (s pat : string) (from p : nat) :
  from ≤ p → occurs pat s p = true →
  ∃ j, indexOf s pat from = Some j ∧ j ≤ p.
Proof.
  unfold indexOf, occurs. intros Hle Hp.
  set (from' := Nat.min from (String.length s)).
  destruct (search_min pat (drop from' s) from' (p - from')) as (j & Hj & Hjp).
  - rewrite drop_drop. by replace (from' + (p - from')) with p by lia.
  - exists j. split; [done|lia].
Qed.

Lemma indexOf_includes (s pat : string) (from j : nat) :
  indexOf s pat from = Some j → includes s pat = true.
Proof.
  unfold includes, indexOf. intros H. simpl Nat.min. rewrite drop_0.
  destruct (search_drop pat s (Nat.min from (String.length s))
              (Nat.min from (String.length s)) 0) as [j0 ->]; eauto.
Qed.

Lemma drop_prefix (a b : string) : drop (String.length a) (a +:+ b) = b.
Proof. induction a as [|x a IH]; [apply drop_0|exact IH]. Qed.

(** A text that is not what is left of [out] after its first characters,
    counted from the end, is not an end of [out]. *)
Lemma not_suffix (out suf : string) :
  suf ≠ "" →
  drop (String.length out - String.length suf) out ≠ suf →
  ¬ ∃ pre, out = pre +:+ suf.
Proof.
  intros Hne Hd [pre ->]. apply Hd.
  pose proof (drop_prefix pre suf) as Hp.
  pose proof (length_drop (String.length pre) (pre +:+ suf)) as Hl.
  rewrite Hp in Hl.
  assert (String.length suf ≠ 0) by (by destruct suf).
  replace (String.length (pre +:+ suf) - String.length suf)
    with (String.length pre) by lia.
  exact Hp.
Qed.

End StringFacts.

(** ** Marker scanner *)

Section ScannerFacts.
Import Str Parser.
Variable nanoid : nat → string.
Variable content : string.

(** A pass that does not [break] moves [idx] past an end marker, and not
    beyond the end of [content]. *)
Lemma pass_advances (st st' : Loop) :
  idx st ≤ String.length content →
  pass nanoid content st = inr st' →
  idx st + String.length CM_END ≤ idx st' ≤ String.length content.
Proof.
  intros Hle. unfold pass.
  destruct (indexOf content CM_START (idx st)) as [start|] eqn:Hs; [|done].
  destruct (indexOf content CM_END start) as [end_|] eqn:He; [|done].
  destruct (replace _ _) as [stub chunk]. intros [= <-]. cbn [idx].
  apply indexOf_bounds in Hs, He.
  change (String.length CM_END) with 18 in *.
  change (String.length CM_START) with 20 in *. lia.
Qed.

Lemma reaches_in_range (st : Loop) :
  reaches nanoid content st → idx st ≤ String.length content.
Proof.
  induction 1 as [|st st' Hr IH Hlt Hp]; [simpl; lia|].
  apply pass_advances in Hp; [lia|done].
Qed.

(** Fuel beyond the distance to the end of [content] is never used. *)
Lemma while_fuel (f1 f2 : nat) (st : Loop) :
  String.length content ≤ idx st + f1 →
  String.length content ≤ idx st + f2 →
  while nanoid f1 content st = while nanoid f2 content st.
Proof.
  revert f2 st. induction f1 as [|f1 IH]; intros f2 st H1 H2.
  - destruct f2 as [|f2]; [done|]. simpl.
    destruct (Nat.ltb_spec (idx st) (String.length content)); [lia|done].
  - destruct f2 as [|f2]; simpl;
      destruct (Nat.ltb_spec (idx st) (String.length content)); try done;
      try lia.
    destruct (pass nanoid content st) as [r|st'] eqn:Hp; [done|].
    apply pass_advances in Hp; [|lia].
    change (String.length CM_END) with 18 in Hp. apply IH; lia.
Qed.

(** The loop started by [transformFile] ends as the loop resumed from any
    state it reaches. *)
Lemma while_reaches (st : Loop) :
  reaches nanoid content st →
  while nanoid (String.length content) content (mkLoop 0 "" [])
  = while nanoid (String.length content) content st.
Proof.
  induction 1 as [|st st' Hr IH Hlt Hp]; [done|].
  rewrite IH. pose proof (reaches_in_range st Hr) as Hle.
  pose proof (pass_advances st st' Hle Hp) as Hadv.
  change (String.length CM_END) with 18 in Hadv.
  rewrite (while_fuel (String.length content) (S (String.length content)) st)
    by lia.
  cbn [while]. by rewrite Hlt, Hp.
Qed.

(** An unmatched start marker ends the scan: whatever follows [idx] is
    copied as it is and no chunk is added. *)
Lemma while_unmatched (relativePath : string) (st : Loop) (start : nat) :
  reaches nanoid content st →
  indexOf content CM_START (idx st) = Some start →
  indexOf content CM_END start = None →
  idx st ≤ start
  ∧ transformFile nanoid relativePath content
    = (out st +:+ slice_from content (idx st), chunks st).
Proof.
  intros Hr Hs He.
  pose proof (reaches_in_range st Hr) as Hle.
  pose proof (indexOf_bounds _ _ _ _ Hs) as [Hlo Hhi].
  change (String.length CM_START) with 20 in Hhi.
  split; [lia|].
  unfold transformFile. rewrite (indexOf_includes _ _ _ _ Hs). cbn [negb].
  rewrite (while_reaches st Hr).
  rewrite (while_fuel (String.length content) (S (String.length content)) st)
    by lia.
  cbn [while]. replace (idx st <? String.length content) with true
    by (symmetry; apply Nat.ltb_lt; lia).
  unfold pass. rewrite Hs, He. rewrite append_assoc, slice_slice_from by lia.
  done.
Qed.

(** What [ends_before] says. *)
Lemma ends_before_spec (p e : nat) :
  ends_before content p = true →
  occurs CM_END content e = true → e + String.length CM_END ≤ p.
Proof.
  unfold ends_before. intros Hb He.
  destruct (indexOf content CM_END (p + 1 - String.length CM_END)) eqn:Hi;
    [done|].
  destruct (Nat.le_gt_cases (e + String.length CM_END) p) as [|Hgt]; [done|].
  destruct (indexOf_min content CM_END (p + 1 - String.length CM_END) e)
    as (j & Hj & _); [lia|done|congruence].
Qed.

(** When a start marker stands at [p] and no end marker has a character at
    [p] or later, the scan comes to a start marker at or before [p] that has
    no end marker after it. *)
Lemma scan_finds_unmatched (p : nat) :
  occurs CM_START content p = true →
  ends_before content p = true →
  ∀ n st, p - idx st < n → reaches nanoid content st → idx st ≤ p →
    ∃ st' start, reaches nanoid content st' ∧ idx st' ≤ p ∧
      indexOf content CM_START (idx st') = Some start ∧
      indexOf content CM_END start = None.
Proof.
  intros Hp Hb. induction n as [|n IH]; intros st Hn Hr Hle; [lia|].
  destruct (indexOf_min content CM_START (idx st) p Hle Hp) as (s & Hs & Hsp).
  destruct (indexOf content CM_END s) as [e|] eqn:He; [|by exists st, s].
  pose proof (indexOf_bounds _ _ _ _ Hs) as [Hs1 Hs2].
  pose proof (indexOf_bounds _ _ _ _ He) as [He1 He2].
  pose proof (ends_before_spec p e Hb (indexOf_occurs _ _ _ _ He)) as Hep.
  change (String.length CM_START) with 20 in *.
  change (String.length CM_END) with 18 in *.
  destruct (pass nanoid content st) as [r|st1] eqn:Hpass.
  { unfold pass in Hpass. rewrite Hs, He in Hpass.
    by destruct (replace _ _). }
  assert (Hidx : idx st1 = e + 18).
  { unfold pass in Hpass. rewrite Hs, He in Hpass.
    destruct (replace _ _). by inversion Hpass. }
  apply (IH st1); [lia| |lia].
  apply (reaches_pass nanoid content st st1 Hr); [|done].
  apply Nat.ltb_lt. lia.
Qed.

End ScannerFacts.

Section ScannerClaims.
Import Str Parser Demo.

(** C7.  On a text without a start marker [transformFile] returns the text
    itself and no chunk; the scanning loop alone, entered on such a text,
    returns the same. *)
Theorem transformFile_no_marker (nanoid : nat → string)
    (relativePath content : string) :
  includes content CM_START = false →
  transformFile nanoid relativePath content = (content, [])
  ∧ while nanoid (String.length content) content (mkLoop 0 "" [])
    = (content, []).
Proof.
  intros Hn. split.
  - unfold transformFile. by rewrite Hn.
  - destruct content as [|c rest] eqn:Hc; [done|]. rewrite <- Hc in *.
    replace (String.length content) with (S (String.length rest))
      by (by rewrite Hc).
    cbn [while]. replace (String.length content) with (S (String.length rest))
      by (by rewrite Hc).
    cbn [idx Nat.ltb Nat.leb]. unfold pass. cbn [idx out chunks].
    unfold includes in Hn.
    destruct (indexOf content CM_START 0); [done|].
    unfold slice_from. by rewrite drop_0.
Qed.

Lemma transformFile_no_marker_witness :
  transformFile demo_ids "main.js" "const a = 1; /* plain */"
  = ("const a = 1; /* plain */", []).
Proof.
  apply (proj1 (transformFile_no_marker demo_ids "main.js"
                  "const a = 1; /* plain */" eq_refl)).
Defined.

(** When a start marker stands at position [p] of the text and no end
    marker has a character at [p] or later, the scan comes to an unmatched
    start marker at or before [p]: [transformFile] returns what it has put
    out, then the text up to [p], then the rest of the text from [p] on. *)
Lemma unmatched_start_clear_of_ends (nanoid : nat → string)
    (relativePath content : string) (p : nat) :
  occurs CM_START content p = true →
  ends_before content p = true →
  ∃ st, reaches nanoid content st ∧ idx st ≤ p
    ∧ transformFile nanoid relativePath content
      = ((out st +:+ slice content (idx st) p) +:+ slice_from content p,
         chunks st).
Proof.
  intros Hp Hb.
  destruct (scan_finds_unmatched nanoid content p Hp Hb (S p) (mkLoop 0 "" []))
    as (st & start & Hr & Hle & Hs & He);
    [simpl; lia | apply reaches_entry | simpl; lia |].
  destruct (while_unmatched nanoid content relativePath st start Hr Hs He)
    as [_ Hres].
  exists st. split; [done|]. split; [done|].
  rewrite Hres, append_assoc, slice_slice_from by lia. done.
Qed.

(** C6, as stated, fails.  In [overlap_text] the last start-marker text
    stands at 38 and no end marker follows it, yet the output does not end
    with the text from 38 on, whatever is taken for the part before it: the
    scan resumes at 39, after the end marker whose last character is the
    first character of that start-marker text, and copies the rest from
    there. *)
Lemma unmatched_start_overlap :
  last_start_unmatched overlap_text 38
  ∧ (transformFile demo_ids "main.js" overlap_text).1
    = unknownStub "chunk_aaaaaaaa" +:+ slice_from overlap_text 39
  ∧ ¬ ∃ pre, (transformFile demo_ids "main.js" overlap_text).1
             = pre +:+ slice_from overlap_text 38.
Proof.
  split; [by vm_compute|]. split; [by vm_compute|].
  apply not_suffix; [by vm_compute|].
  vm_compute. discriminate.
Qed.

(** C6, amended.  Whenever the scan, with [idx], [out] and [chunks], finds a
    start marker from [idx] on after which no end marker follows,
    [transformFile] ends without error and returns [out], then the text
    from [idx] up to that marker, then the rest of the text from the marker
    on, marker included; the two pieces are the whole remaining text from
    [idx], unchanged, and no chunk is added.  When this happens at the first
    start marker the output is the input and there is no chunk. *)
Theorem transformFile_unmatched_start (nanoid : nat → string)
    (relativePath content : string) (st : Loop) (start : nat) :
  reaches nanoid content st →
  indexOf content CM_START (idx st) = Some start →
  indexOf content CM_END start = None →
  transformFile nanoid relativePath content
  = ((out st +:+ slice content (idx st) start) +:+ slice_from content start,
     chunks st)
  ∧ slice content (idx st) start +:+ slice_from content start
    = slice_from content (idx st)
  ∧ (st = mkLoop 0 "" [] →
     transformFile nanoid relativePath content = (content, [])).
Proof.
  intros Hr Hs He.
  destruct (while_unmatched nanoid content relativePath st start Hr Hs He)
    as [Hle Hres].
  assert (Hrest : slice content (idx st) start +:+ slice_from content start
                  = slice_from content (idx st))
    by (by apply slice_slice_from).
  split; [|split; [done|]].
  - by rewrite Hres, append_assoc, Hrest.
  - intros ->. rewrite Hres. cbn [idx out chunks]. unfold slice_from.
    by rewrite drop_0.
Qed.

Lemma transformFile_unmatched_start_witness :
  transformFile demo_ids "main.js" demo_text
  = (out demo_loop +:+ " def /* CODEMASK_START */ tail", chunks demo_loop)
  ∧ transformFile demo_ids "main.js" stray_end_text = (stray_end_text, []).
Proof.
  split.
  - refine (eq_trans (proj1 (transformFile_unmatched_start demo_ids "main.js"
                               demo_text demo_loop 73 _ _ _)) _).
    + apply (reaches_pass demo_ids demo_text (mkLoop 0 "" []) demo_loop).
      * apply reaches_entry.
      * vm_compute. reflexivity.
      * vm_compute. reflexivity.
    + vm_compute. reflexivity.
    + vm_compute. reflexivity.
    + vm_compute. reflexivity.
  - apply (proj2 (proj2 (transformFile_unmatched_start demo_ids "main.js"
                           stray_end_text (mkLoop 0 "" []) 17
                           (reaches_entry _ _) eq_refl eq_refl)) eq_refl).
Defined.

End ScannerClaims.

(** ** Snippet classifier *)

Section ClassifierClaims.
Import Str Regex Parser.

(** C8.  [function add(a,b){ return a+b; }] is classified "decl" with name
    add, params a,b, body return a+b; and the trimmed snippet as [original].
    In general, as soon as the function-declaration pattern matches the
    trimmed snippet the result is "decl", built from its three groups; the
    later patterns are not consulted. *)
Theorem analyze_function_declaration :
  analyze "function add(a,b){ return a+b; }"
  = mkInfo "decl" (Some "add") "a,b" "return a+b;"
      "function add(a,b){ return a+b; }"
  ∧ ∀ snippet decl,
      exec declRe (trim snippet) = Some decl →
      analyze snippet
      = mkInfo "decl" (Some (trim (grp decl 1))) (trim (grp decl 2))
          (trim (grp decl 3)) (trim snippet).
Proof.
  split; [vm_compute; reflexivity|].
  intros snippet decl H. unfold analyze. by rewrite H.
Qed.

Lemma analyze_function_declaration_witness :
  analyze "  async function g ( x ){ go(x); }  "
  = mkInfo "decl" (Some "g") "x" "go(x);" "async function g ( x ){ go(x); }".
Proof.
  apply (proj2 analyze_function_declaration
           "  async function g ( x ){ go(x); }  "
           [(3, " go(x); "); (2, " x "); (1, "g")]).
  vm_compute. reflexivity.
Defined.

(** C9.  [const TABLE = [1,2,3];] is classified "constant" with name TABLE,
    empty params and body, and the trimmed snippet as [original].  In
    general, a snippet that only the third pattern matches is "constant"
    with the name of group 1; the value text of group 2 is not looked at. *)
Theorem analyze_constant :
  analyze "const TABLE = [1,2,3];"
  = mkInfo "constant" (Some "TABLE") "" "" "const TABLE = [1,2,3];"
  ∧ analyze ("  const TABLE = [1,2,3];" +:+ nl)
    = mkInfo "constant" (Some "TABLE") "" "" "const TABLE = [1,2,3];"
  ∧ ∀ snippet constant,
      exec declRe (trim snippet) = None →
      exec arrowRe (trim snippet) = None →
      exec constantRe (trim snippet) = Some constant →
      analyze snippet
      = mkInfo "constant" (Some (trim (grp constant 1))) "" "" (trim snippet).
Proof.
  split; [vm_compute; reflexivity|]. split; [vm_compute; reflexivity|].
  intros snippet constant Hd Ha Hc. unfold analyze. by rewrite Hd, Ha, Hc.
Qed.

Lemma analyze_constant_witness :
  analyze "let secret = { a: 1 }"
  = mkInfo "constant" (Some "secret") "" "" "let secret = { a: 1 }".
Proof.
  apply (proj2 (proj2 analyze_constant) "let secret = { a: 1 }"
           [(2, "{ a: 1 }"); (1, "secret")]).
  - vm_compute. reflexivity.
  - vm_compute. reflexivity.
  - vm_compute. reflexivity.
Defined.

End ClassifierClaims.

(** ** Client loader *)

Section LoaderFacts.
Import Sdk.
Context {Value : Type}.
Variable newFunction : string → option Value.
Variable call : Value → option Value.
Variable encodeURIComponent : string → string.

Lemma called_app (tr1 tr2 : list Event) :
  called (tr1 ++ tr2) = (called tr1 ++ called tr2)%list.
Proof. unfold called. apply flat_map_app. Qed.

(** Flushing the queue calls the closures in the order of the queue. *)
Lemma called_flush (st : @State Value) (queued : list string) :
  called (flat_map (start encodeURIComponent st) queued) = queued.
Proof.
  induction queued as [|c queued IH]; [done|].
  cbn [flat_map]. rewrite called_app, IH. unfold start.
  by destruct (cache st !! c).
Qed.

Lemma flush_only (st : @State Value) (queued : list string) :
  Forall (fun e => is_flush e = true)
    (flat_map (start encodeURIComponent st) queued).
Proof.
  induction queued as [|c queued IH]; [constructor|].
  cbn [flat_map]. apply Forall_app. split; [|done]. unfold start.
  destruct (cache st !! c); repeat constructor.
Qed.

(** Before [init], [load] only appends to the queue. *)
Lemma loads_queue (net : string → FetchResult) (ids : list string)
    (l : @Loader Value) :
  initialized l = false →
  initialized (loads newFunction call encodeURIComponent net ids l) = false
  ∧ waiters (loads newFunction call encodeURIComponent net ids l)
    = (waiters l ++ ids)%list.
Proof.
  revert l. induction ids as [|c ids IH]; intros l Hi; simpl.
  - by rewrite app_nil_r.
  - replace (load newFunction call encodeURIComponent net c l).1.1
      with (mkLoader (state l) false (waiters l ++ [c]) (readyResolved l)
              (exposed l))
      by (unfold load; by rewrite Hi).
    destruct (IH (mkLoader (state l) false (waiters l ++ [c])
                    (readyResolved l) (exposed l)) eq_refl) as [H1 H2].
    split; [done|]. rewrite H2. simpl. by rewrite <- app_assoc.
Qed.

(** Neither [load] nor [init] removes or replaces an entry of the cache. *)
Lemma load_keeps_cache (net : string → FetchResult) (c c' : string)
    (l : @Loader Value) (v : Value) :
  cache (state l) !! c = Some v →
  cache (state (load newFunction call encodeURIComponent net c' l).1.1) !! c
  = Some v.
Proof.
  intros Hc. unfold load. destruct (initialized l); [|done].
  unfold _loadImpl. destruct (cache (state l) !! c') as [v'|] eqn:Hc'; [done|].
  destruct (net _) as [|[] [d|]]; try done.
  destruct (kind d =? "function")%string.
  - destruct (newFunction ("return " +:+ code d) ≫= call); [|done].
    cbn. rewrite lookup_insert_ne; [done|]. congruence.
  - by destruct (newFunction (code d)).
Qed.

Lemma init_keeps_cache (opts : Opts) (l : @Loader Value) :
  cache (state (init encodeURIComponent opts l).1) = cache (state l).
Proof. reflexivity. Qed.

End LoaderFacts.

Section LoaderClaims.
Import Sdk Demo.

(** C4, as stated, fails: with c1 and c2 queued, [init] calls the queued
    closures (event 1 of the trace) before it dispatches the readiness event
    (event 5). *)
Lemma init_broadcast_after_flush :
  ¬ signals_before_flush (init encode demo_opts queued_loader).2.
Proof.
  intros H.
  specialize (H 5 1 (Dispatched "CodeMaskReady") (WaiterCalled "c1")
                eq_refl eq_refl eq_refl eq_refl).
  lia.
Qed.

(** C4, amended.  Every call of [init] resolves the readiness handle first,
    then calls the queued closures, each issuing its request, in the order
    in which they were queued, and only then dispatches the readiness event
    and exposes the state object; all of this happens before [init] returns,
    which leaves the queue empty and the loader initialized.  In particular
    the closures of [load] calls made before [init] are called in the order
    of those calls. *)
Theorem init_order {Value : Type} (newFunction : string → option Value)
    (call : Value → option Value) (encodeURIComponent : string → string)
    (opts : Opts) (l : @Loader Value) :
  let l' := (init encodeURIComponent opts l).1 in
  let flush := flat_map (start encodeURIComponent (state l')) (waiters l) in
  (init encodeURIComponent opts l).2
  = ([ReadyResolved] ++ flush ++ [Dispatched "CodeMaskReady"; StateExposed])%list
  ∧ Forall (fun e => is_flush e = true) flush
  ∧ called (init encodeURIComponent opts l).2 = waiters l
  ∧ waiters l' = [] ∧ initialized l' = true
  ∧ readyResolved l' = true ∧ exposed l' = true
  ∧ ∀ net ids,
      initialized l = false →
      called (init encodeURIComponent opts
                (loads newFunction call encodeURIComponent net ids l)).2
      = (waiters l ++ ids)%list.
Proof.
  assert (Hcalled : ∀ l0 : @Loader Value,
            called (init encodeURIComponent opts l0).2 = waiters l0).
  { intros l0. unfold init. cbn [snd].
    rewrite !called_app, called_flush. cbn. by rewrite app_nil_r. }
  cbn zeta. split; [reflexivity|]. split; [apply flush_only|].
  split; [apply Hcalled|]. do 4 (split; [reflexivity|]).
  intros net ids Hi. rewrite Hcalled.
  by apply loads_queue.
Qed.

Lemma init_order_witness :
  called (init encode demo_opts queued_loader).2 = ["c1"; "c2"].
Proof.
  apply (proj2 (proj2 (proj2 (proj2 (proj2 (proj2 (proj2
           (init_order compile invoke encode demo_opts initial)))))))
           function_net ["c1"; "c2"] eq_refl).
Defined.

(** C5.  On an initialized loader that has not cached the chunk id and whose
    request is answered with success: when the answer's kind is "function"
    and its code compiles, [load] issues one request, returns the compiled
    value and caches it, no later [load] or [init] drops the entry, and a
    second [load] of the id, whatever the network would answer, returns the
    same value without a request, so one request in all; when the kind is anything else and the code compiles, [load] issues
    one request, returns the compiled value and caches nothing, and a second
    [load] of the id issues the request again, so two in all. *)
Theorem load_cache_asymmetry {Value : Type}
    (newFunction : string → option Value) (call : Value → option Value)
    (encodeURIComponent : string → string)
    (net1 net2 : string → FetchResult) (chunkId : string)
    (l : @Loader Value) (data : Payload) :
  let u := url encodeURIComponent (state l) chunkId in
  let r1 := load newFunction call encodeURIComponent net1 chunkId l in
  let r2 := load newFunction call encodeURIComponent net2 chunkId r1.1.1 in
  initialized l = true →
  cache (state l) !! chunkId = None →
  net1 u = Reply true (Some data) →
  (∀ f fn,
     kind data = "function" →
     newFunction ("return " +:+ code data) = Some f → call f = Some fn →
     r1.1.2 = [Fetch u] ∧ r1.2 = Some (Returned fn)
     ∧ cache (state r1.1.1) !! chunkId = Some fn
     ∧ (∀ net other opts,
          cache (state (load newFunction call encodeURIComponent net other
                          r1.1.1).1.1) !! chunkId = Some fn
          ∧ cache (state (init encodeURIComponent opts r1.1.1).1) !! chunkId
            = Some fn)
     ∧ r2.1.2 = [] ∧ r2.2 = Some (Returned fn)
     ∧ fetches (r1.1.2 ++ r2.1.2) = 1)
  ∧ (∀ fn,
     kind data ≠ "function" →
     newFunction (code data) = Some fn →
     r1.1.2 = [Fetch u] ∧ r1.2 = Some (Returned fn)
     ∧ cache (state r1.1.1) !! chunkId = None
     ∧ r2.1.2 = [Fetch u]
     ∧ fetches (r1.1.2 ++ r2.1.2) = 2).
Proof.
  intros u r1 r2 Hi Hc Hn. split.
  - intros f fn Hk Hf Hcall.
    assert (H1 : r1 = (mkLoader
                         (mkState (baseUrl (state l)) (projectId (state l))
                            (key (state l)) (<[chunkId := fn]> (cache (state l))))
                         true (waiters l) (readyResolved l) (exposed l),
                       [Fetch u], Some (Returned fn))).
    { unfold r1, load, _loadImpl. fold u. rewrite Hi, Hc, Hn, Hk, Hf. simpl.
      by rewrite Hcall. }
    assert (H2 : r2 = (r1.1.1, [], Some (Returned fn))).
    { unfold r2. rewrite H1. unfold load, _loadImpl. cbn.
      by rewrite lookup_insert_eq. }
    assert (H3 : cache (state r1.1.1) !! chunkId = Some fn)
      by (rewrite H1; cbn; apply lookup_insert_eq).
    split; [by rewrite H1|]. split; [by rewrite H1|]. split; [done|].
    split.
    { intros net other opts. split; [by apply load_keeps_cache|].
      by rewrite init_keeps_cache. }
    rewrite H2, H1. done.
  - intros fn Hk Hf.
    assert (H1 : r1 = (mkLoader (state l) true (waiters l) (readyResolved l)
                         (exposed l),
                       [Fetch u], Some (Returned fn))).
    { unfold r1, load, _loadImpl. fold u. rewrite Hi, Hc, Hn.
      apply String.eqb_neq in Hk. rewrite Hk. by rewrite Hf. }
    assert (H2 : r2.1.2 = [Fetch u]).
    { unfold r2. rewrite H1. unfold load, _loadImpl. cbn. fold u. rewrite Hc.
      destruct (net2 u) as [|[] [d|]]; try done.
      destruct (kind d =? "function")%string.
      - by destruct (newFunction ("return " +:+ code d) ≫= call).
      - by destruct (newFunction (code d)). }
    rewrite H2, H1. done.
Qed.

Lemma load_cache_asymmetry_witness :
  fetches
    ((load compile invoke encode function_net "c1" ready_loader).1.2
     ++ (load compile invoke encode raw_net "c1"
           (load compile invoke encode function_net "c1" ready_loader).1.1).1.2)
  = 1
  ∧ fetches
      ((load compile invoke encode raw_net "c2" ready_loader).1.2
       ++ (load compile invoke encode raw_net "c2"
             (load compile invoke encode raw_net "c2" ready_loader).1.1).1.2)
    = 2.
Proof.
  split.
  - destruct (load_cache_asymmetry compile invoke encode function_net raw_net
                "c1" ready_loader
                (mkPayload "function" "(x) => { return x*2; }")
                eq_refl eq_refl eq_refl) as [Hfun _].
    destruct (Hfun "return (x) => { return x*2; }"
                "return (x) => { return x*2; }" eq_refl eq_refl eq_refl)
      as (_ & _ & _ & _ & _ & _ & Hone).
    exact Hone.
  - destruct (load_cache_asymmetry compile invoke encode raw_net raw_net
                "c2" ready_loader (mkPayload "raw" "const TABLE = [1,2,3];")
                eq_refl eq_refl eq_refl) as [_ Hraw].
    destruct (Hraw "const TABLE = [1,2,3];") as (_ & _ & _ & _ & Htwo);
      [discriminate | reflexivity | exact Htwo].
Defined.

End LoaderClaims.

(** * Further properties of the code *)

(** ** Registry and fetch handler *)

Section RegistryMore.
Import ChunkStore Server Demo.

(** [putChunk] either throws "Project not found", exactly when the project
    id is unmapped, or stores the chunk so that [getChunk] returns it. *)
Theorem putChunk_getChunk (store : Store) (projectId chunkId : string)
    (chunkMeta : ChunkMeta) :
  match putChunk projectId chunkId chunkMeta store with
  | inl e => e = "Project not found" ∧ store !! projectId = None
  | inr store' =>
      is_Some (store !! projectId)
      ∧ getChunk projectId chunkId store' = Obj chunkMeta
  end.
Proof.
  unfold putChunk, getChunk, map_get.
  destruct (store !! projectId) as [proj|] eqn:Hp; [|done].
  split; [eauto|]. rewrite lookup_insert_eq. simpl.
  by rewrite lookup_insert_eq.
Qed.

(** A successful [putChunk] changes nothing else: every other chunk id of
    the project and every chunk of every other project reads as before, no
    project appears or disappears, and every key stays. *)
Theorem putChunk_frame (store store' : Store) (projectId chunkId : string)
    (chunkMeta : ChunkMeta) :
  putChunk projectId chunkId chunkMeta store = inr store' →
  (∀ p c, (p, c) ≠ (projectId, chunkId) →
     getChunk p c store' = getChunk p c store)
  ∧ (∀ p, key <$> store' !! p = key <$> store !! p).
Proof.
  unfold putChunk, map_get.
  destruct (store !! projectId) as [proj|] eqn:Hp; [|done].
  intros [= <-]. split.
  - intros p c Hne. unfold getChunk, map_get.
    destruct (decide (p = projectId)) as [->|Hp'].
    + rewrite lookup_insert_eq, Hp. simpl.
      rewrite lookup_insert_ne; [done|]. congruence.
    + by rewrite lookup_insert_ne.
  - intros p. destruct (decide (p = projectId)) as [->|Hp'].
    + by rewrite lookup_insert_eq, Hp.
    + by rewrite lookup_insert_ne.
Qed.

Lemma putChunk_frame_witness :
  getChunk "p" "c" (run (PutChunk "p" "t" raw_chunk) demo_store)
  = getChunk "p" "c" demo_store.
Proof.
  refine (proj1 (putChunk_frame demo_store
                   (run (PutChunk "p" "t" raw_chunk) demo_store)
                   "p" "t" raw_chunk _) "p" "c" _).
  - vm_compute. reflexivity.
  - discriminate.
Defined.

(** [createProject] touches one project id only: every other project and
    its chunks read as before. *)
Theorem createProject_frame (store : Store) (projectId key' other : string) :
  other ≠ projectId →
  getProject other (createProject projectId key' store)
  = getProject other store
  ∧ ∀ chunkId,
      getChunk other chunkId (createProject projectId key' store)
      = getChunk other chunkId store.
Proof.
  intros Hne. unfold getProject, getChunk, map_get, createProject.
  by rewrite lookup_insert_ne.
Qed.

Lemma createProject_frame_witness :
  getChunk "p" "c" (createProject "q" "k2" demo_store) = Obj demo_chunk.
Proof.
  rewrite (proj2 (createProject_frame demo_store "q" "k2" "p"
                    ltac:(discriminate)) "c").
  vm_compute. reflexivity.
Defined.

(** The fetch handler answers 200 exactly when the project is stored, the
    supplied key is its key and the chunk is stored in it; an unknown
    project is answered 404 "Project not found" whatever the key, and a
    missing chunk 404 "Chunk not found" once the key is right. *)
Theorem fetch_status (store : Store) (projectId chunkId : string)
    (qkey : option string) :
  (status (fetch store projectId chunkId qkey) = 200 ↔
   ∃ project chunk,
     store !! projectId = Some project ∧ qkey = Some (key project)
     ∧ chunks project !! chunkId = Some chunk)
  ∧ (store !! projectId = None →
     fetch store projectId chunkId qkey
     = mkResponse 404 [("error", JStr "Project not found")])
  ∧ (∀ project,
       store !! projectId = Some project → qkey = Some (key project) →
       chunks project !! chunkId = None →
       fetch store projectId chunkId qkey
       = mkResponse 404 [("error", JStr "Chunk not found")]).
Proof.
  unfold fetch, getProject, getChunk, map_get.
  destruct (store !! projectId) as [project|] eqn:Hp.
  - split; [|split]; [|done|].
    + case_bool_decide as Hk; simpl.
      * destruct (chunks project !! chunkId) as [chunk|] eqn:Hc.
        -- split; [intros _; eauto|]. intros _.
           by destruct ((type chunk =? "decl") || (type chunk =? "arrow"))%string.
        -- split; [done|]. intros (? & ? & [= <-] & _ & ?). congruence.
      * split; [done|]. intros (? & ? & [= <-] & ? & _). done.
    + intros ? [= <-] -> Hc. rewrite bool_decide_eq_true_2 by done.
      simpl. by rewrite Hc.
  - split; [|split]; [|done|done].
    split; [done|]. by intros (? & ? & ? & _).
Qed.

Lemma fetch_status_witness :
  fetch demo_store "nobody" "c" (Some "k")
  = mkResponse 404 [("error", JStr "Project not found")]
  ∧ fetch demo_store "p" "missing" (Some "k")
    = mkResponse 404 [("error", JStr "Chunk not found")].
Proof.
  split.
  - apply (proj1 (proj2 (fetch_status demo_store "nobody" "c" (Some "k")))).
    vm_compute. reflexivity.
  - apply (proj2 (proj2 (fetch_status demo_store "p" "missing" (Some "k")))
             (mkProject "k" {["c" := demo_chunk]})).
    + vm_compute. reflexivity.
    + reflexivity.
    + vm_compute. reflexivity.
Defined.

End RegistryMore.

(** ** Marker scanner: composition *)

Section StringShift.
Import Str.

Lemma str_length_app (a b : string) :
  String.length (a +:+ b) = String.length a + String.length b.
Proof.
  induction a as [|x a IH]; [done|].
  change (S (String.length (a +:+ b)) = S (String.length a + String.length b)).
  by rewrite IH.
Qed.

Lemma append_nil_r (a : string) : a +:+ "" = a.
Proof.
  induction a as [|x a IH]; [done|].
  change (String x (a +:+ "") = String x a). by rewrite IH.
Qed.

Lemma drop_app (a b : string) (n : nat) :
  drop (String.length a + n) (a +:+ b) = drop n b.
Proof. induction a as [|x a IH]; [done|]. exact IH. Qed.

Lemma take_app (a b : string) : take (String.length a) (a +:+ b) = a.
Proof.
  induction a as [|x a IH]; [by destruct b|].
  change (String x (take (String.length a) (a +:+ b)) = String x a).
  by rewrite IH.
Qed.

Lemma slice_app (a b : string) (x y : nat) :
  slice (a +:+ b) (String.length a + x) (String.length a + y) = slice b x y.
Proof.
  unfold slice. rewrite drop_app. f_equal. lia.
Qed.

Lemma search_shift (pat s : string) (d i : nat) :
  search pat s (d + i) = (fun j => d + j) <$> search pat s i.
Proof.
  revert i. induction s as [|c s IH]; intros i; cbn [search].
  - by destruct (String.prefix pat "").
  - destruct (String.prefix pat (String c s)); [done|].
    replace (S (d + i)) with (d + S i) by lia. apply IH.
Qed.

Lemma indexOf_app (a b pat : string) (j : nat) :
  indexOf (a +:+ b) pat (String.length a + j)
  = (fun r => String.length a + r) <$> indexOf b pat j.
Proof.
  unfold indexOf. rewrite str_length_app.
  replace (Nat.min (String.length a + j) (String.length a + String.length b))
    with (String.length a + Nat.min j (String.length b)) by lia.
  rewrite drop_app. apply search_shift.
Qed.

End StringShift.

Section ScannerMore.
Import Str Parser Doc.

Lemma replace_chunkId (chunkId' : string) (info : Info) :
  chunkId (replace chunkId' info).2 = chunkId'.
Proof.
  unfold replace.
  by destruct (kind info =? "decl")%string, (kind info =? "arrow")%string,
    (kind info =? "constant")%string.
Qed.

Lemma pass_inl (nanoid : nat → string) (content : string) (st : Loop)
    (o : string) (cs : list Chunk) :
  pass nanoid content st = inl (o, cs) → cs = chunks st.
Proof.
  unfold pass.
  destruct (indexOf content CM_START (idx st)) as [start|]; [|by intros [= _ <-]].
  destruct (indexOf content CM_END start) as [end_|]; [|by intros [= _ <-]].
  by destruct (replace _ _).
Qed.

Lemma pass_inr (nanoid : nat → string) (content : string) (st st' : Loop) :
  pass nanoid content st = inr st' →
  ∃ info,
    chunks st'
    = (chunks st
       ++ [(replace ("chunk_" +:+ nanoid (length (chunks st))) info).2])%list.
Proof.
  unfold pass.
  destruct (indexOf content CM_START (idx st)) as [start|]; [|done].
  destruct (indexOf content CM_END start) as [end_|]; [|done].
  destruct (replace _ _) as [stub chunk] eqn:Hr. intros [= <-]. simpl.
  eexists. by rewrite Hr.
Qed.

(** A property of the chunk list that every pass keeps holds of the chunk
    list that the loop returns. *)
Lemma while_chunks (nanoid : nat → string) (content : string)
    (Q : list Chunk → Prop) :
  (∀ st st', pass nanoid content st = inr st' →
     Q (chunks st) → Q (chunks st')) →
  ∀ fuel st, Q (chunks st) → Q (while nanoid fuel content st).2.
Proof.
  intros Hstep. induction fuel as [|fuel IH]; intros st HQ; [done|].
  cbn [while]. destruct (idx st <? String.length content); [|done].
  destruct (pass nanoid content st) as [[o cs]|st'] eqn:Hp.
  - apply pass_inl in Hp. by subst.
  - apply IH. by eapply Hstep.
Qed.

Lemma while_no_marker (nanoid : nat → string) (content : string) :
  includes content CM_START = false →
  while nanoid (String.length content) content (mkLoop 0 "" [])
  = (content, []).
Proof.
  intros Hn. destruct content as [|c rest] eqn:Hc; [done|]. rewrite <- Hc in *.
  replace (String.length content) with (S (String.length rest))
    by (by rewrite Hc).
  cbn [while]. replace (String.length content) with (S (String.length rest))
    by (by rewrite Hc).
  cbn [idx Nat.ltb Nat.leb]. unfold pass. cbn [idx out chunks].
  unfold includes in Hn.
  destruct (indexOf content CM_START 0); [done|].
  unfold slice_from. by rewrite drop_0.
Qed.

(** The early return of [transformFile] is a shortcut only: the loop gives
    the same result on a text without a start marker. *)
Lemma transformFile_loop (nanoid : nat → string)
    (relativePath content : string) :
  transformFile nanoid relativePath content
  = while nanoid (String.length content) content (mkLoop 0 "" []).
Proof.
  unfold transformFile. destruct (includes content CM_START) eqn:Hi; [done|].
  by rewrite while_no_marker.
Qed.

Lemma chunk_ids_eq (nanoid : nat → string) (relativePath content : string) :
  map chunkId (transformFile nanoid relativePath content).2
  = map (fun k => "chunk_" +:+ nanoid k)
      (seq 0 (length (transformFile nanoid relativePath content).2)).
Proof.
  rewrite transformFile_loop.
  apply (while_chunks nanoid content
           (fun cs => map chunkId cs
                      = map (fun k => "chunk_" +:+ nanoid k)
                          (seq 0 (length cs)))); [|done].
  intros st st' Hp HQ. apply pass_inr in Hp as [info ->].
  rewrite map_app, length_app, seq_app, map_app, HQ. simpl.
  by rewrite replace_chunkId.
Qed.

Lemma chunk_prefix_inj (a b : string) :
  "chunk_" +:+ a = "chunk_" +:+ b → a = b.
Proof. intros H. by injection H. Qed.

(** The chunk ids of a file are "chunk_" followed by the values that
    [nanoid] returned, in the order of the calls; so when [nanoid] never
    returns the same value twice, no two chunks of the file share an id. *)
Theorem transformFile_chunk_ids (nanoid : nat → string)
    (relativePath content : string) :
  let chunks := (transformFile nanoid relativePath content).2 in
  map chunkId chunks
  = map (fun k => "chunk_" +:+ nanoid k) (seq 0 (length chunks))
  ∧ ((∀ i j, nanoid i = nanoid j → i = j) → NoDup (map chunkId chunks)).
Proof.
  cbn zeta. split; [apply chunk_ids_eq|].
  intros Hinj. rewrite chunk_ids_eq.
  apply NoDup_fmap_2; [|apply NoDup_seq].
  intros i j Hij. by apply Hinj, chunk_prefix_inj.
Qed.

Lemma transformFile_chunk_ids_witness :
  NoDup (map chunkId (transformFile (fun k => String.string_of_list_ascii
                                       (repeat "a"%char k))
                        "main.js" Demo.demo_text).2).
Proof.
  apply (proj2 (transformFile_chunk_ids _ "main.js" Demo.demo_text)).
  intros i j H.
  apply (f_equal String.length) in H.
  revert H. generalize i j. clear.
  induction i as [|i IH]; intros [|j]; simpl; try done.
  intros H. f_equal. apply IH. by injection H.
Defined.

End ScannerMore.

Section ScannerComposition.
Import Str Parser Doc.

(** One pass over a text with something put in front of it is the pass over
    the text, with positions, [out] and [chunks] carried along. *)
Lemma pass_shift (nanoid : nat → string) (front rest out0 : string)
    (cs0 : list Chunk) (st : Loop) :
  pass nanoid (front +:+ rest)
    (mkLoop (String.length front + idx st) (out0 +:+ out st)
       (cs0 ++ chunks st))
  = match pass (fun k => nanoid (length cs0 + k)) rest st with
    | inl (o, cs) => inl (out0 +:+ o, (cs0 ++ cs)%list)
    | inr st' =>
        inr (mkLoop (String.length front + idx st') (out0 +:+ out st')
               (cs0 ++ chunks st'))
    end.
Proof.
  unfold pass. cbn [idx out chunks]. rewrite indexOf_app.
  destruct (indexOf rest CM_START (idx st)) as [start|]; cbn [fmap option_fmap option_map].
  - rewrite indexOf_app.
    destruct (indexOf rest CM_END start) as [end_|];
      cbn [fmap option_fmap option_map].
    + rewrite slice_app, <- Nat.add_assoc, slice_app, length_app.
      destruct (replace _ _) as [stub chunk].
      by rewrite !append_assoc, <- Nat.add_assoc, <- app_assoc.
    + unfold slice_from. by rewrite slice_app, drop_app, !append_assoc.
  - unfold slice_from. by rewrite drop_app, append_assoc.
Qed.

Lemma while_shift (nanoid : nat → string) (front rest out0 : string)
    (cs0 : list Chunk) (fuel : nat) (st : Loop) :
  while nanoid fuel (front +:+ rest)
    (mkLoop (String.length front + idx st) (out0 +:+ out st)
       (cs0 ++ chunks st))
  = let r := while (fun k => nanoid (length cs0 + k)) fuel rest st in
    (out0 +:+ r.1, (cs0 ++ r.2)%list).
Proof.
  revert st. induction fuel as [|fuel IH]; intros st; [done|].
  cbn [while idx]. rewrite str_length_app.
  replace (String.length front + idx st
           <? String.length front + String.length rest)
    with (idx st <? String.length rest)
    by (destruct (Nat.ltb_spec (idx st) (String.length rest));
        symmetry; [apply Nat.ltb_lt | apply Nat.ltb_ge]; lia).
  destruct (idx st <? String.length rest); [|done].
  rewrite pass_shift.
  destruct (pass _ rest st) as [[o cs]|st']; [done|]. apply IH.
Qed.

(** The first marker pair of a text is replaced and the scan goes on with
    the text after its end marker. *)
Lemma scan_pair (nanoid : nat → string)
    (relativePath pre frag post : string) :
  let content := pre +:+ CM_START +:+ frag +:+ CM_END +:+ post in
  indexOf content CM_START 0 = Some (String.length pre) →
  indexOf content CM_END (String.length pre)
  = Some (String.length pre + String.length CM_START + String.length frag) →
  transformFile nanoid relativePath content
  = let sc := replace ("chunk_" +:+ nanoid 0) (analyze (trim frag)) in
    let r := transformFile (fun k => nanoid (S k)) relativePath post in
    (pre +:+ sc.1 +:+ r.1, sc.2 :: r.2).
Proof.
  intros content Hs He. cbn zeta.
  set (front := pre +:+ CM_START +:+ frag +:+ CM_END).
  assert (Hc : content = front +:+ post)
    by (unfold content, front; by rewrite !append_assoc).
  assert (Hlen : String.length front
                 = String.length pre + 20 + String.length frag + 18)
    by (unfold front; rewrite !str_length_app;
        change (String.length CM_START) with 20;
        change (String.length CM_END) with 18; lia).
  rewrite !transformFile_loop.
  rewrite (while_fuel nanoid content (String.length content)
             (S (String.length content))) by (simpl; lia).
  cbn [while idx].
  replace (0 <? String.length content) with true
    by (symmetry; apply Nat.ltb_lt; rewrite Hc, str_length_app; lia).
  assert (Hpass : pass nanoid content (mkLoop 0 "" [])
            = inr (mkLoop (String.length front + 0)
                     ((pre +:+ (replace ("chunk_" +:+ nanoid 0)
                                  (analyze (trim frag))).1) +:+ "")
                     ([(replace ("chunk_" +:+ nanoid 0)
                          (analyze (trim frag))).2] ++ []))).
  { unfold pass. cbn [idx out chunks]. rewrite Hs, He.
    change (String.length CM_START) with 20.
    replace (slice content 0 (String.length pre)) with pre.
    2:{ unfold slice, content. rewrite drop_0, Nat.sub_0_r.
        by rewrite take_app. }
    replace (slice content (String.length pre + 20)
               (String.length pre + 20 + String.length frag)) with frag.
    2:{ unfold slice, content.
        replace (pre +:+ CM_START +:+ frag +:+ CM_END +:+ post)
          with ((pre +:+ CM_START) +:+ frag +:+ CM_END +:+ post)
          by (by rewrite !append_assoc).
        replace (String.length pre + 20)
          with (String.length (pre +:+ CM_START) + 0)
          by (rewrite str_length_app; change (String.length CM_START) with 20;
              lia).
        rewrite drop_app, drop_0.
        replace (String.length (pre +:+ CM_START) + 0 + String.length frag
                 - (String.length (pre +:+ CM_START) + 0))
          with (String.length frag) by lia.
        by rewrite take_app. }
    destruct (replace _ _) as [stub chunk]. cbn [fst snd length app].
    change (String.length CM_END) with 18.
    rewrite append_nil_r. change ("" +:+ pre) with pre.
    do 2 f_equal. lia. }
  rewrite Hpass, Hc.
  rewrite (while_shift nanoid front post _
             [(replace ("chunk_" +:+ nanoid 0) (analyze (trim frag))).2]
             (String.length (front +:+ post)) (mkLoop 0 "" [])).
  cbn zeta. cbn [length Nat.add].
  rewrite (while_fuel (fun k => nanoid (S k)) post
             (String.length (front +:+ post)) (String.length post))
    by (rewrite ?str_length_app; simpl; lia).
  by rewrite append_assoc.
Qed.

End ScannerComposition.

(** ** Snippet classifier: trimming and the shape of the result *)

Section TrimFacts.
Import Str.

Lemma trimStart_cases (s : string) :
  trimStart s = "" ∨ ∃ c t, trimStart s = String c t ∧ is_space c = false.
Proof.
  induction s as [|c s IH]; [by left|]. simpl.
  destruct (is_space c) eqn:Hc; [done|]. right. eauto.
Qed.

Lemma trimEnd_head (c : ascii) (t : string) :
  is_space c = false → ∃ t', trimEnd (String c t) = String c t'.
Proof.
  intros Hc. cbn [trimEnd]. destruct (trimEnd t); [|eauto].
  rewrite Hc. eauto.
Qed.

Lemma trimEnd_idem (s : string) : trimEnd (trimEnd s) = trimEnd s.
Proof.
  induction s as [|c s IH]; [done|]. cbn [trimEnd].
  destruct (trimEnd s) as [|d t] eqn:Ht.
  - destruct (is_space c) eqn:Hc; [done|].
    change (trimEnd (String c "")) with (if is_space c then "" else String c "").
    by rewrite Hc.
  - change (trimEnd (String c (String d t)))
      with (match trimEnd (String d t) with
            | "" => if is_space c then "" else String c ""
            | String x y => String c (String x y)
            end).
    by rewrite IH.
Qed.

(** Trimming twice is trimming once. *)
Lemma trim_idem (s : string) : trim (trim s) = trim s.
Proof.
  unfold trim. destruct (trimStart_cases s) as [->|(c & t & -> & Hc)]; [done|].
  destruct (trimEnd_head c t Hc) as [t' Ht']. rewrite Ht'.
  cbn [trimStart]. rewrite Hc, <- Ht'. apply trimEnd_idem.
Qed.

(** A text that neither starts nor ends with white space is its own trim. *)
Lemma trimEnd_last (a : string) (c : ascii) :
  is_space c = false →
  trimEnd (a +:+ String c "") = a +:+ String c "".
Proof.
  intros Hc. induction a as [|x a IH].
  { change (trimEnd (String c "") = String c "").
    change (trimEnd (String c "")) with (if is_space c then "" else String c "").
    by rewrite Hc. }
  change (trimEnd (String x (a +:+ String c "")) = String x (a +:+ String c "")).
  cbn [trimEnd]. rewrite IH. by destruct a.
Qed.

End TrimFacts.

Section ClassifierShape.
Import Str Regex Parser.

(** Whatever the snippet, [analyze] returns one of the four kinds with the
    trimmed snippet as [original]; white space around the snippet does not
    change the result; [name] is null exactly for "unknown"; params and
    body are trimmed, and empty for "constant" and "unknown". *)
Theorem analyze_shape (snippet : string) :
  let info := analyze snippet in
  original info = trim snippet
  ∧ analyze (trim snippet) = info
  ∧ (kind info = "decl" ∨ kind info = "arrow" ∨ kind info = "constant"
     ∨ kind info = "unknown")
  ∧ (name info = None ↔ kind info = "unknown")
  ∧ trim (params info) = params info ∧ trim (body info) = body info
  ∧ (kind info = "constant" ∨ kind info = "unknown" →
     params info = "" ∧ body info = "").
Proof.
  cbn zeta. split; [|split].
  - unfold analyze.
    destruct (exec declRe (trim snippet)); [done|].
    destruct (exec arrowRe (trim snippet)); [done|].
    by destruct (exec constantRe (trim snippet)).
  - unfold analyze. by rewrite trim_idem.
  - unfold analyze.
    destruct (exec declRe (trim snippet)) as [m|];
      [|destruct (exec arrowRe (trim snippet)) as [m|];
        [|destruct (exec constantRe (trim snippet)) as [m|]]];
      cbn [kind name params body]; rewrite ?trim_idem;
      (split; [auto 6|]); (split; [split; intros; done|]);
      (split; [done|]); (split; [done|]); try done;
      intros [?|?]; done.
Qed.

End ClassifierShape.

(** ** The matcher *)

Section MatcherFacts.
Import Str Regex.

Lemma orelse_Some {A} (a b : option A) (x : A) :
  orelse a b = Some x → a = Some x ∨ (a = None ∧ b = Some x).
Proof. destruct a; simpl; auto. Qed.

Lemma rep_greedy_sound (p : ascii → bool) (s : string) (i : nat)
    (c : Captures) (k : Cont) (x : Captures) :
  rep_greedy p s i c k = Some x →
  ∃ n, n ≤ String.length s ∧ k (drop n s) (i + n) c = Some x.
Proof.
  revert i. induction s as [|a s IH]; intros i; cbn [rep_greedy].
  - intros H. exists 0. by rewrite Nat.add_0_r.
  - destruct (p a).
    + intros H. apply orelse_Some in H as [H|[_ H]].
      * apply IH in H as (n & Hn & H). exists (S n). split; [simpl; lia|].
        by replace (i + S n) with (S i + n) by lia.
      * exists 0. rewrite Nat.add_0_r. split; [lia|done].
    + intros H. exists 0. rewrite Nat.add_0_r. split; [lia|done].
Qed.

Lemma rep_lazy_sound (p : ascii → bool) (s : string) (i : nat)
    (c : Captures) (k : Cont) (x : Captures) :
  rep_lazy p s i c k = Some x →
  ∃ n, n ≤ String.length s ∧ k (drop n s) (i + n) c = Some x.
Proof.
  revert i. induction s as [|a s IH]; intros i; cbn [rep_lazy]; intros H;
    apply orelse_Some in H as [H|[_ H]].
  - exists 0. rewrite Nat.add_0_r. split; [lia|done].
  - done.
  - exists 0. rewrite Nat.add_0_r. split; [lia|done].
  - destruct (p a); [|done].
    apply IH in H as (n & Hn & H). exists (S n). split; [simpl; lia|].
    by replace (i + S n) with (S i + n) by lia.
Qed.

(** The matcher succeeds only through its continuation, called on what is
    left of the input after some characters have been consumed. *)
Lemma run_sound (inp : string) (r : regex) :
  ∀ (s : string) (i : nat) (c : Captures) (k : Cont) (x : Captures),
    run inp r s i c k = Some x →
    ∃ n c', n ≤ String.length s ∧ k (drop n s) (i + n) c' = Some x.
Proof.
  induction r as [| |l|p|g p|r IH|r1 IH1 r2 IH2|r1 IH1 r2 IH2|g r IH];
    intros s i c k x; cbn [run].
  - destruct (Nat.eqb i 0); [|done]. intros H. exists 0, c.
    rewrite Nat.add_0_r, drop_0. split; [lia|done].
  - destruct s; [|done]. intros H. exists 0, c.
    rewrite Nat.add_0_r. split; [lia|done].
  - destruct (String.prefix l s) eqn:Hp; [|done]. intros H.
    exists (String.length l), c. split; [by apply prefix_length|done].
  - destruct s as [|a s]; [done|]. destruct (p a); [|done]. intros H.
    exists 1, c. split; [simpl; lia|]. by replace (i + 1) with (S i) by lia.
  - destruct g; intros H;
      [apply rep_greedy_sound in H | apply rep_lazy_sound in H];
      destruct H as (n & Hn & H); eauto.
  - intros H. apply orelse_Some in H as [H|[_ H]]; [by apply IH in H|].
    exists 0, c. rewrite Nat.add_0_r, drop_0. split; [lia|done].
  - intros H. apply orelse_Some in H as [H|[_ H]]; [by apply IH1 in H|].
    by apply IH2 in H.
  - intros H. apply IH1 in H as (n1 & c1 & Hn1 & H).
    apply IH2 in H as (n2 & c2 & Hn2 & H). rewrite length_drop in Hn2.
    exists (n1 + n2), c2. split; [lia|].
    by rewrite drop_drop, <- Nat.add_assoc in H.
  - intros H. apply IH in H as (n & c' & Hn & H). eauto.
Qed.

Lemma exec_from_sound (inp : string) (r : regex) (s : string) (i : nat)
    (x : Captures) :
  exec_from inp r s i = Some x →
  ∃ n, run inp r (drop n s) (i + n) [] (fun _ _ c => Some c) = Some x.
Proof.
  revert i. induction s as [|a s IH]; intros i; cbn [exec_from]; intros H;
    apply orelse_Some in H as [H|[_ H]].
  - exists 0. by rewrite Nat.add_0_r.
  - done.
  - exists 0. by rewrite Nat.add_0_r.
  - apply IH in H as (n & H). exists (S n).
    by replace (i + S n) with (S i + n) by lia.
Qed.

(** A pattern that begins with [^] matches at the start of the subject or
    not at all. *)
Lemma exec_anchored (r : regex) (subject : string) (x : Captures) :
  exec (Seq Bol r) subject = Some x →
  run subject r subject 0 [] (fun _ _ c => Some c) = Some x.
Proof.
  intros H. apply exec_from_sound in H as (n & H). cbn [run] in H.
  destruct n as [|n]; [by rewrite drop_0 in H|done].
Qed.

End MatcherFacts.

(** ** Snippet classifier: what the patterns require *)

Section ClassifierKeywords.
Import Str Regex Parser.

Lemma run_seq_sound (inp : string) (r1 r2 : regex) (s : string) (i : nat)
    (c : Captures) (k : Cont) (x : Captures) :
  run inp (Seq r1 r2) s i c k = Some x →
  ∃ n c', run inp r2 (drop n s) (i + n) c' k = Some x.
Proof.
  cbn [run]. intros H. apply run_sound in H as (n & c' & _ & H). eauto.
Qed.

Lemma run_lit_prefix (inp l : string) (r : regex) (s : string) (i : nat)
    (c : Captures) (k : Cont) (x : Captures) :
  run inp (Seq (Lit l) r) s i c k = Some x → String.prefix l s = true.
Proof. cbn [run]. by destruct (String.prefix l s). Qed.

Lemma decl_keyword (t : string) (m : Captures) :
  exec declRe t = Some m →
  String.prefix "function" t = true ∨ String.prefix "async" t = true.
Proof.
  unfold declRe. cbn [seq]. intros H. apply exec_anchored in H.
  cbn [run] in H. apply orelse_Some in H as [H|[_ H]].
  - right. by destruct (String.prefix "async" t).
  - left. by destruct (String.prefix "function" t).
Qed.

Lemma assign_keyword (r : regex) (t : string) (m : Captures) :
  exec (Seq Bol (Seq (Alt (Lit "const") (Lit "let")) r)) t = Some m →
  String.prefix "const" t = true ∨ String.prefix "let" t = true.
Proof.
  intros H. apply exec_anchored in H.
  cbn [run] in H. apply orelse_Some in H as [H|[_ H]].
  - left. by destruct (String.prefix "const" t).
  - right. by destruct (String.prefix "let" t).
Qed.

Lemma arrow_has_arrow (t : string) (m : Captures) :
  exec arrowRe t = Some m → includes t "=>" = true.
Proof.
  unfold arrowRe. cbn [seq]. intros H. apply exec_anchored in H.
  do 11 (apply run_seq_sound in H as (? & ? & H); rewrite ?drop_drop in H).
  apply run_lit_prefix in H.
  match type of H with
  | String.prefix _ (drop ?n _) = true =>
      destruct (indexOf_min t "=>" 0 n) as (j & Hj & _); [lia|exact H|]
  end.
  unfold includes. by rewrite Hj.
Qed.

(** What a kind tells about the trimmed snippet: a "decl" starts with
    [function] or [async]; an "arrow" or "constant" starts with [const] or
    [let], and an "arrow" contains [=>].  A snippet that starts with none of
    the four words is "unknown", with null name and its trimmed text
    kept. *)
Theorem analyze_keywords (snippet : string) :
  let t := trim snippet in
  let info := analyze snippet in
  (kind info = "decl" →
   String.prefix "function" t = true ∨ String.prefix "async" t = true)
  ∧ (kind info = "arrow" ∨ kind info = "constant" →
     String.prefix "const" t = true ∨ String.prefix "let" t = true)
  ∧ (kind info = "arrow" → includes t "=>" = true)
  ∧ (String.prefix "function" t = false → String.prefix "async" t = false →
     String.prefix "const" t = false → String.prefix "let" t = false →
     info = mkInfo "unknown" None "" "" t).
Proof.
  cbn zeta. unfold analyze.
  destruct (exec declRe (trim snippet)) as [m|] eqn:Hd.
  { apply decl_keyword in Hd. cbn [kind]. repeat split; try done.
    - by intros [?|?].
    - intros H1 H2. destruct Hd; congruence. }
  destruct (exec arrowRe (trim snippet)) as [m|] eqn:Ha.
  { pose proof (arrow_has_arrow _ _ Ha) as Hin.
    unfold arrowRe in Ha. cbn [seq] in Ha. apply assign_keyword in Ha.
    cbn [kind]. repeat split; try done.
    intros _ _ H1 H2. destruct Ha; congruence. }
  destruct (exec constantRe (trim snippet)) as [m|] eqn:Hc.
  { unfold constantRe in Hc. cbn [seq] in Hc. apply assign_keyword in Hc.
    cbn [kind]. repeat split; try done.
    intros _ _ H1 H2. destruct Hc; congruence. }
  cbn [kind]. repeat split; try done. by intros [?|?].
Qed.

Lemma analyze_keywords_witness :
  analyze "  window.secret();  "
  = mkInfo "unknown" None "" "" "window.secret();".
Proof.
  apply (proj2 (proj2 (proj2 (analyze_keywords "  window.secret();  ")))
           eq_refl eq_refl eq_refl eq_refl).
Defined.

End ClassifierKeywords.

(** ** Snippet classifier: function declarations in general *)

Section MatcherSteps.
Import Str Regex Chars.
Variable inp : string.

Lemma ident_not_space (a : ascii) : ident a = true → is_space a = false.
Proof. destruct a as [[] [] [] [] [] [] [] []]; vm_compute; congruence. Qed.

Lemma any_true (a : ascii) : any a = true.
Proof. unfold any. by destruct (is_space a). Qed.

Lemma every_any (s : string) : every any s = true.
Proof. induction s as [|a s IH]; [done|]. simpl. by rewrite any_true. Qed.

Lemma prefix_app (l s : string) : String.prefix l (l +:+ s) = true.
Proof.
  induction l as [|a l IH]; [by destruct s|].
  change (String.prefix (String a l) (String a (l +:+ s)) = true).
  cbn [String.prefix]. by destruct (ascii_dec a a).
Qed.

Lemma exec_from_first (r : regex) (s : string) (i : nat) (x : Captures) :
  run inp r s i [] (fun _ _ c => Some c) = Some x →
  exec_from inp r s i = Some x.
Proof. intros H. destruct s; cbn [exec_from]; by rewrite H. Qed.

(** A literal at the head of the input is consumed. *)
Lemma step_lit (l : string) (R : regex) (s : string) (i : nat)
    (c : Captures) (k : Cont) :
  run inp (Seq (Lit l) R) (l +:+ s) i c k
  = run inp R s (i + String.length l) c k.
Proof.
  cbn [run]. rewrite prefix_app.
  replace (String.length l) with (String.length l + 0) at 1 by lia.
  by rewrite drop_app, drop_0.
Qed.

(** A literal fails on an input that starts with another character. *)
Lemma fail_lit (h ch : ascii) (l : string) (R : regex) (t : string) (i : nat)
    (c : Captures) (k : Cont) :
  ch ≠ h → run inp (Seq (Lit (String h l)) R) (String ch t) i c k = None.
Proof.
  intros Hne. cbn [run String.prefix].
  destruct (ascii_dec h ch); [congruence|done].
Qed.

(** An optional group that starts with a literal is skipped when the
    literal is not there. *)
Lemma step_opt_skip (l : string) (r R : regex) (s : string) (i : nat)
    (c : Captures) (k : Cont) :
  String.prefix l s = false →
  run inp (Seq (Opt (Seq (Lit l) r)) R) s i c k = run inp R s i c k.
Proof. intros H. cbn [run]. by rewrite H. Qed.

(** A greedy star stops at once on a character outside its class, and at
    the end of the input. *)
Lemma step_star_stop (p : ascii → bool) (R : regex) (a : ascii) (t : string)
    (i : nat) (c : Captures) (k : Cont) :
  p a = false →
  run inp (Seq (Rep true p) R) (String a t) i c k
  = run inp R (String a t) i c k.
Proof. intros H. cbn [run rep_greedy]. by rewrite H. Qed.

Lemma rep_greedy_all (p : ascii → bool) (a rest : string) (i : nat)
    (c : Captures) (k : Cont) (x : Captures) :
  every p a = true →
  rep_greedy p rest (i + String.length a) c k = Some x →
  rep_greedy p (a +:+ rest) i c k = Some x.
Proof.
  revert i. induction a as [|h a IH]; intros i Ha H.
  - by rewrite Nat.add_0_r in H.
  - simpl in Ha. apply andb_true_iff in Ha as [Hh Ha].
    change (rep_greedy p (String h (a +:+ rest)) i c k = Some x).
    cbn [rep_greedy]. rewrite Hh, (IH (S i)); [done|done|].
    by replace (S i + String.length a) with (i + String.length (String h a))
      by (simpl; lia).
Qed.

(** A group of one or more characters of a class takes all of them when the
    rest of the pattern then matches. *)
Lemma step_group_plus (g : nat) (p : ascii → bool) (R : regex) (h b : ascii)
    (a t : string) (i : nat) (c : Captures) (k : Cont) (x : Captures) :
  every p (String h a) = true → p b = false →
  run inp R (String b t) (i + String.length (String h a))
    ((g, slice inp i (i + String.length (String h a))) :: c) k = Some x →
  run inp (Seq (Group g (Seq (Cls p) (Rep true p))) R)
    (String h a +:+ String b t) i c k = Some x.
Proof.
  intros Ha Hb H. simpl in Ha. apply andb_true_iff in Ha as [Hh Ha].
  change (String h a +:+ String b t) with (String h (a +:+ String b t)).
  cbn [run]. rewrite Hh. apply rep_greedy_all; [done|].
  cbn [rep_greedy]. rewrite Hb.
  by replace (S i + String.length a) with (i + String.length (String h a))
    by (simpl; lia).
Qed.

Lemma rep_lazy_skip (p : ascii → bool) (a rest : string) (i : nat)
    (c : Captures) (k : Cont) :
  every p a = true →
  (∀ a1 ch a2, a = a1 +:+ String ch a2 →
     k (String ch a2 +:+ rest) (i + String.length a1) c = None) →
  rep_lazy p (a +:+ rest) i c k
  = rep_lazy p rest (i + String.length a) c k.
Proof.
  revert i. induction a as [|h a IH]; intros i Ha Hk.
  - by rewrite Nat.add_0_r.
  - simpl in Ha. apply andb_true_iff in Ha as [Hh Ha].
    change (rep_lazy p (String h (a +:+ rest)) i c k
            = rep_lazy p rest (i + String.length (String h a)) c k).
    cbn [rep_lazy].
    pose proof (Hk "" h a eq_refl) as H0. rewrite Nat.add_0_r in H0.
    change (String h a +:+ rest) with (String h (a +:+ rest)) in H0.
    rewrite H0, Hh. cbn [orelse]. rewrite (IH (S i)); [|done|].
    + by replace (S i + String.length a)
        with (i + String.length (String h a)) by (simpl; lia).
    + intros a1 ch a2 ->.
      replace (S i + String.length a1)
        with (i + String.length (String h a1)) by (simpl; lia).
      by apply (Hk (String h a1) ch a2).
Qed.

(** A lazy group takes a text [a] when the rest of the pattern fails at
    every earlier stop and matches after [a]. *)
Lemma step_group_lazy (g : nat) (p : ascii → bool) (R : regex)
    (a rest : string) (i : nat) (c : Captures) (k : Cont) (x : Captures) :
  every p a = true →
  (∀ ch a2 j c', (∃ a1, a = a1 +:+ String ch a2) →
     run inp R (String ch a2 +:+ rest) j c' k = None) →
  run inp R rest (i + String.length a)
    ((g, slice inp i (i + String.length a)) :: c) k = Some x →
  run inp (Seq (Group g (Rep false p)) R) (a +:+ rest) i c k = Some x.
Proof.
  intros Ha Hfail H. cbn [run]. rewrite rep_lazy_skip; [|done|].
  - destruct rest; cbn [rep_lazy]; by rewrite H.
  - intros a1 ch a2 Heq. apply Hfail. eauto.
Qed.

(** White space and then the end of the input cannot match a text that ends
    with another character. *)
Lemma fail_space_eol (u : string) (z : ascii) (i : nat) (c : Captures)
    (k : Cont) :
  is_space z = false →
  run inp (Seq (Rep true space) Eol) (u +:+ String z "") i c k = None.
Proof.
  intros Hz. cbn [run]. revert i. induction u as [|h u IH]; intros i.
  - change ("" +:+ String z "") with (String z "").
    cbn [rep_greedy]. unfold space at 1. by rewrite Hz.
  - change (String h u +:+ String z "") with (String h (u +:+ String z "")).
    cbn [rep_greedy]. rewrite IH. by destruct (space h).
Qed.

(** The same steps, read from the match of the rest of the pattern back to
    the match of the whole. *)
Lemma imp_bol (R : regex) (s : string) (c : Captures) (k : Cont)
    (x : Captures) :
  run inp R s 0 c k = Some x → run inp (Seq Bol R) s 0 c k = Some x.
Proof. done. Qed.

Lemma imp_opt_skip (l : string) (r R : regex) (s : string) (i : nat)
    (c : Captures) (k : Cont) (x : Captures) :
  String.prefix l s = false →
  run inp R s i c k = Some x →
  run inp (Seq (Opt (Seq (Lit l) r)) R) s i c k = Some x.
Proof. intros H. by rewrite step_opt_skip. Qed.

Lemma imp_lit (l : string) (R : regex) (s : string) (i : nat)
    (c : Captures) (k : Cont) (x : Captures) :
  run inp R s (i + String.length l) c k = Some x →
  run inp (Seq (Lit l) R) (l +:+ s) i c k = Some x.
Proof. by rewrite step_lit. Qed.

Lemma imp_star_stop (p : ascii → bool) (R : regex) (a : ascii) (t : string)
    (i : nat) (c : Captures) (k : Cont) (x : Captures) :
  p a = false →
  run inp R (String a t) i c k = Some x →
  run inp (Seq (Rep true p) R) (String a t) i c k = Some x.
Proof. intros H. by rewrite step_star_stop. Qed.

Lemma imp_plus_one (p : ascii → bool) (R : regex) (a b : ascii) (t : string)
    (i : nat) (c : Captures) (k : Cont) (x : Captures) :
  p a = true → p b = false →
  run inp R (String b t) (S i) c k = Some x →
  run inp (Seq (Seq (Cls p) (Rep true p)) R) (String a (String b t)) i c k
  = Some x.
Proof. intros Ha Hb H. cbn [run rep_greedy]. by rewrite Ha, Hb. Qed.

Lemma imp_opt_take (r R : regex) (s : string) (i : nat) (c : Captures)
    (k : Cont) (x : Captures) :
  run inp (Seq r R) s i c k = Some x →
  run inp (Seq (Opt r) R) s i c k = Some x.
Proof. cbn [run]. intros H. by rewrite H. Qed.

Lemma imp_assoc (r1 r2 R : regex) (s : string) (i : nat) (c : Captures)
    (k : Cont) (x : Captures) :
  run inp (Seq r1 (Seq r2 R)) s i c k = Some x →
  run inp (Seq (Seq r1 r2) R) s i c k = Some x.
Proof. done. Qed.

End MatcherSteps.

Section DeclGeneral.
Import Str Regex Parser Chars.

Lemma slice_mid (front x back : string) (i : nat) :
  i = String.length front →
  slice (front +:+ x +:+ back) i (i + String.length x) = x.
Proof.
  intros ->.
  transitivity (slice (front +:+ x +:+ back) (String.length front + 0)
                  (String.length front + String.length x)).
  { by rewrite Nat.add_0_r. }
  rewrite slice_app. unfold slice. rewrite drop_0, Nat.sub_0_r.
  apply take_app.
Qed.

Lemma every_other_than (c : ascii) (a a1 a2 : string) (ch : ascii) :
  every (other_than c) a = true → a = a1 +:+ String ch a2 → ch ≠ c.
Proof.
  intros Ha ->. induction a1 as [|h a1 IH].
  - simpl in Ha. apply andb_true_iff in Ha as [Hc _]. unfold other_than in Hc.
    intros ->. by rewrite Ascii.eqb_refl in Hc.
  - apply IH. simpl in Ha. by apply andb_true_iff in Ha as [_ Ha].
Qed.

Lemma every_any_and (q : ascii → bool) (s : string) :
  every q s = true → every any s = true.
Proof. intros _. apply every_any. Qed.

Lemma trim_ident (s : string) : every ident s = true → trim s = s.
Proof.
  intros H. unfold trim.
  assert (Hs : trimStart s = s).
  { destruct s as [|a s]; [done|]. simpl in H.
    apply andb_true_iff in H as [Ha _]. cbn [trimStart].
    by rewrite (ident_not_space a Ha). }
  rewrite Hs. clear Hs. induction s as [|a s IH]; [done|].
  simpl in H. apply andb_true_iff in H as [Ha H].
  cbn [trimEnd]. rewrite (IH H), (ident_not_space a Ha). by destruct s.
Qed.

(** The declaration pattern from the word [function] on, at the end of a
    subject that begins with [pre]. *)
Lemma decl_tail (pre : string) (n0 : ascii) (name' params body : string) :
  every ident (String n0 name') = true →
  every (other_than ")") params = true →
  run (pre +:+ "function " +:+ String n0 name' +:+ "(" +:+ params +:+ "){"
       +:+ body +:+ "}")
    (seq [Lit "function"; plus space; Group 1 (plus ident); star space;
          Lit "("; Group 2 (lazy_star any); Lit ")"; star space;
          Lit "{"; Group 3 (lazy_star any); Lit "}"; star space; Eol])
    ("function " +:+ String n0 name' +:+ "(" +:+ params +:+ "){"
     +:+ body +:+ "}")
    (String.length pre) [] (fun _ _ c => Some c)
  = Some [(3, body); (2, params); (1, String n0 name')].
Proof.
  intros Hn Hp. cbn [seq]. unfold plus, star, lazy_star.
  pose proof Hn as Hn0. simpl in Hn0. apply andb_true_iff in Hn0 as [Hn0 _].
  apply (imp_lit _ "function").
  apply imp_plus_one; [reflexivity|by apply ident_not_space|].
  apply (step_group_plus _ 1 ident _ n0 "("%char name'); [done|reflexivity|].
  apply imp_star_stop; [reflexivity|].
  apply (imp_lit _ "(").
  apply (step_group_lazy _ 2 any _ params); [apply every_any| |].
  { intros ch a2 j c' [a1 Ha]. apply fail_lit.
    by eapply every_other_than. }
  apply (imp_lit _ ")"). apply imp_star_stop; [reflexivity|].
  apply (imp_lit _ "{").
  apply (step_group_lazy _ 3 any _ body); [apply every_any| |].
  { intros ch a2 j c' _. destruct (ascii_dec ch "}") as [->|Hne].
    - change (String "}" a2 +:+ "}") with ("}" +:+ (a2 +:+ String "}" "")).
      rewrite step_lit. by apply fail_space_eol.
    - by apply fail_lit. }
  apply (imp_lit _ "}" _ ""). cbn [run rep_greedy].
  do 2 f_equal; [|f_equal; [|f_equal]]; f_equal.
  - replace (pre +:+ "function " +:+ String n0 name' +:+ "(" +:+ params
             +:+ "){" +:+ body +:+ "}")
      with ((pre +:+ "function " +:+ String n0 name' +:+ "(" +:+ params
             +:+ "){") +:+ body +:+ "}") by (by rewrite !append_assoc).
    apply slice_mid. rewrite !str_length_app. simpl. lia.
  - replace (pre +:+ "function " +:+ String n0 name' +:+ "(" +:+ params
             +:+ "){" +:+ body +:+ "}")
      with ((pre +:+ "function " +:+ String n0 name' +:+ "(") +:+ params
            +:+ ("){" +:+ body +:+ "}")) by (by rewrite !append_assoc).
    apply slice_mid. rewrite !str_length_app. simpl. lia.
  - replace (pre +:+ "function " +:+ String n0 name' +:+ "(" +:+ params
             +:+ "){" +:+ body +:+ "}")
      with ((pre +:+ "function ") +:+ String n0 name'
            +:+ ("(" +:+ params +:+ "){" +:+ body +:+ "}"))
      by (by rewrite !append_assoc).
    apply slice_mid. rewrite !str_length_app. simpl. lia.
Qed.

Lemma decl_matches (n0 : ascii) (name' params body : string) :
  every ident (String n0 name') = true →
  every (other_than ")") params = true →
  exec declRe ("function " +:+ String n0 name' +:+ "(" +:+ params +:+ "){"
               +:+ body +:+ "}")
  = Some [(3, body); (2, params); (1, String n0 name')]
  ∧ exec declRe ("async function " +:+ String n0 name' +:+ "(" +:+ params
                 +:+ "){" +:+ body +:+ "}")
    = Some [(3, body); (2, params); (1, String n0 name')].
Proof.
  intros Hn Hp. split; unfold exec; apply exec_from_first;
    unfold declRe; cbn [seq]; apply imp_bol.
  - apply imp_opt_skip; [reflexivity|]. by apply (decl_tail "").
  - apply imp_opt_take, imp_assoc, (imp_lit _ "async").
    unfold plus at 1. apply imp_plus_one; [reflexivity|reflexivity|].
    by apply (decl_tail "async ").
Qed.

(** The trimmed declaration is the declaration. *)
Lemma trim_declaration (head : string) (rest : string) :
  trim (String "f" head +:+ rest +:+ "}") = String "f" head +:+ rest +:+ "}"
  ∧ trim (String "a" head +:+ rest +:+ "}")
    = String "a" head +:+ rest +:+ "}".
Proof.
  unfold trim. split.
  - change (trimStart (String "f" head +:+ rest +:+ "}"))
      with (String "f" head +:+ rest +:+ "}").
    rewrite <- append_assoc. by apply trimEnd_last.
  - change (trimStart (String "a" head +:+ rest +:+ "}"))
      with (String "a" head +:+ rest +:+ "}").
    rewrite <- append_assoc. by apply trimEnd_last.
Qed.

(** For every identifier [name], every parameter text without a closing
    parenthesis and every body text whatever, also one with braces in it,
    [function name(params){body}] and [async function name(params){body}]
    are classified "decl" with that name, the trimmed parameter text and the
    trimmed body. *)
Theorem analyze_function (name params body : string) :
  name ≠ "" →
  every ident name = true →
  every (other_than ")") params = true →
  let text := "function " +:+ name +:+ "(" +:+ params +:+ "){" +:+ body
              +:+ "}" in
  analyze text = mkInfo "decl" (Some name) (trim params) (trim body) text
  ∧ analyze ("async " +:+ text)
    = mkInfo "decl" (Some name) (trim params) (trim body) ("async " +:+ text).
Proof.
  intros Hne Hn Hp. destruct name as [|n0 name']; [done|]. cbn zeta.
  destruct (decl_matches n0 name' params body Hn Hp) as [H1 H2].
  assert (Ht1 : trim ("function " +:+ String n0 name' +:+ "(" +:+ params
                      +:+ "){" +:+ body +:+ "}")
                = "function " +:+ String n0 name' +:+ "(" +:+ params +:+ "){"
                  +:+ body +:+ "}").
  { replace ("function " +:+ String n0 name' +:+ "(" +:+ params +:+ "){"
             +:+ body +:+ "}")
      with ("function " +:+ (String n0 name' +:+ "(" +:+ params +:+ "){"
                             +:+ body) +:+ "}")
      by (by rewrite !append_assoc).
    apply (proj1 (trim_declaration "unction " _)). }
  assert (Ht2 : trim ("async " +:+ "function " +:+ String n0 name' +:+ "("
                      +:+ params +:+ "){" +:+ body +:+ "}")
                = "async " +:+ "function " +:+ String n0 name' +:+ "("
                  +:+ params +:+ "){" +:+ body +:+ "}").
  { replace ("async " +:+ "function " +:+ String n0 name' +:+ "(" +:+ params
             +:+ "){" +:+ body +:+ "}")
      with ("async function " +:+ (String n0 name' +:+ "(" +:+ params +:+ "){"
                                   +:+ body) +:+ "}")
      by (by rewrite !append_assoc).
    apply (proj2 (trim_declaration "sync function " _)). }
  split; unfold analyze.
  - rewrite Ht1, H1. cbv [grp group Nat.eqb default from_option id].
    by rewrite (trim_ident _ Hn).
  - rewrite Ht2.
    change ("async " +:+ "function " +:+ String n0 name' +:+ "(" +:+ params
            +:+ "){" +:+ body +:+ "}")
      with ("async function " +:+ String n0 name' +:+ "(" +:+ params +:+ "){"
            +:+ body +:+ "}").
    rewrite H2. cbv [grp group Nat.eqb default from_option id].
    by rewrite (trim_ident _ Hn).
Qed.

Lemma analyze_function_witness :
  analyze "function area(w, h){ if (w) { return w*h; } return 0; }"
  = mkInfo "decl" (Some "area") "w, h" "if (w) { return w*h; } return 0;"
      "function area(w, h){ if (w) { return w*h; } return 0; }".
Proof.
  apply (proj1 (analyze_function "area" "w, h"
                  " if (w) { return w*h; } return 0; "
                  ltac:(discriminate) eq_refl eq_refl)).
Defined.

End DeclGeneral.

(** ** Marker scanner: whole files *)

Section ScannerFiles.
Import Str Regex Parser Doc.

Lemma analyze_cases (snippet : string) :
  (∃ n p b, analyze snippet
            = mkInfo "decl" (Some n) (trim p) (trim b) (trim snippet))
  ∨ (∃ n p b, analyze snippet
              = mkInfo "arrow" (Some n) (trim p) (trim b) (trim snippet))
  ∨ (∃ n, analyze snippet = mkInfo "constant" (Some n) "" "" (trim snippet))
  ∨ analyze snippet = mkInfo "unknown" None "" "" (trim snippet).
Proof.
  unfold analyze.
  destruct (exec declRe (trim snippet)); [left; eauto|].
  destruct (exec arrowRe (trim snippet)); [right; left; eauto|].
  destruct (exec constantRe (trim snippet)); [right; right; left; eauto|].
  by right; right; right.
Qed.

Lemma pass_inr_analyze (nanoid : nat → string) (content : string)
    (st st' : Loop) :
  pass nanoid content st = inr st' →
  ∃ raw,
    chunks st'
    = (chunks st
       ++ [(replace ("chunk_" +:+ nanoid (length (chunks st)))
              (analyze (trim raw))).2])%list.
Proof.
  unfold pass.
  destruct (indexOf content CM_START (idx st)) as [start|]; [|done].
  destruct (indexOf content CM_END start) as [end_|]; [|done].
  destruct (replace _ _) as [stub chunk] eqn:Hr. intros [= <-]. simpl.
  eexists. by rewrite Hr.
Qed.

(** Every chunk that [transformFile] returns has one of the four types the
    fetch handler knows; its name is null exactly for "raw"; params and body
    are empty for "constant" and "raw"; and its original text is trimmed. *)
Theorem transformFile_chunk_shape (nanoid : nat → string)
    (relativePath content : string) :
  Forall (fun c =>
            let m := meta c in
            (ChunkStore.type m = "decl" ∨ ChunkStore.type m = "arrow"
             ∨ ChunkStore.type m = "constant" ∨ ChunkStore.type m = "raw")
            ∧ (ChunkStore.name m = None ↔ ChunkStore.type m = "raw")
            ∧ (ChunkStore.type m = "constant" ∨ ChunkStore.type m = "raw" →
               ChunkStore.params m = "" ∧ ChunkStore.body m = "")
            ∧ trim (ChunkStore.original m) = ChunkStore.original m)
    (transformFile nanoid relativePath content).2.
Proof.
  rewrite transformFile_loop.
  apply (while_chunks nanoid content (Forall _)); [|constructor].
  intros st st' Hp HQ. apply pass_inr_analyze in Hp as [raw ->].
  apply Forall_app. split; [done|]. constructor; [|constructor].
  destruct (analyze_cases (trim raw))
    as [(n & p & b & ->)|[(n & p & b & ->)|[(n & ->) | -> ]]];
    cbn -[trim]; rewrite !trim_idem;
    (split; [auto 6|]); (split; [split; intros; done|]);
    (split; [first [intros [?|?]; done | done]|]); done.
Qed.

(** The replacement text left in the file is determined by the chunk id,
    the kind, the name and the parameter text: two snippets of the same
    kind, name and parameters get the same stub, whatever their bodies and
    original texts. *)
Theorem replace_hides_body (chunkId' : string) (info1 info2 : Info) :
  kind info1 = kind info2 → name info1 = name info2 →
  params info1 = params info2 →
  (replace chunkId' info1).1 = (replace chunkId' info2).1.
Proof.
  intros Hk Hn Hp. unfold replace. rewrite <- Hk.
  destruct (kind info1 =? "decl")%string;
    [by unfold declStub; rewrite Hn, Hp|].
  destruct (kind info1 =? "arrow")%string;
    [by unfold arrowStub; rewrite Hn, Hp|].
  destruct (kind info1 =? "constant")%string; [|done].
  unfold constantStub. by rewrite Hn.
Qed.

Lemma replace_hides_body_witness :
  (replace "chunk_1" (analyze "function f(a){ return secret(a); }")).1
  = (replace "chunk_1" (analyze "function f(a){ return 0; }")).1.
Proof.
  apply (replace_hides_body "chunk_1"
           (analyze "function f(a){ return secret(a); }")
           (analyze "function f(a){ return 0; }")); vm_compute; reflexivity.
Defined.

Lemma replace_original (chunkId' : string) (info : Info) :
  ChunkStore.original (meta (replace chunkId' info).2) = original info.
Proof.
  unfold replace.
  by destruct (kind info =? "decl")%string, (kind info =? "arrow")%string,
    (kind info =? "constant")%string.
Qed.

Lemma analyze_original (snippet : string) :
  original (analyze snippet) = trim snippet.
Proof.
  by destruct (analyze_cases snippet)
    as [(n & p & b & ->)|[(n & p & b & ->)|[(n & ->) | -> ]]].
Qed.

(** [transformFile] works pair by pair.  When the first start marker of a
    text comes after [pre] and the first end marker from there on comes
    after [frag], the result is [pre], then the stub for the trimmed and
    classified [frag] under the first id, then the result for the text after
    the end marker under the ids that follow; the first chunk carries that
    id and the trimmed [frag] as its original text. *)
Theorem transformFile_pair (nanoid : nat → string)
    (relativePath pre frag post : string) :
  let content := pre +:+ CM_START +:+ frag +:+ CM_END +:+ post in
  let sc := replace ("chunk_" +:+ nanoid 0) (analyze (trim frag)) in
  let r := transformFile (fun k => nanoid (S k)) relativePath post in
  indexOf content CM_START 0 = Some (String.length pre) →
  indexOf content CM_END (String.length pre)
  = Some (String.length pre + String.length CM_START + String.length frag) →
  transformFile nanoid relativePath content
  = (pre +:+ sc.1 +:+ r.1, sc.2 :: r.2)
  ∧ chunkId sc.2 = "chunk_" +:+ nanoid 0
  ∧ ChunkStore.original (meta sc.2) = trim frag.
Proof.
  intros content sc r Hs He. split; [|split].
  - by apply scan_pair.
  - apply replace_chunkId.
  - unfold sc. by rewrite replace_original, analyze_original, trim_idem.
Qed.

Lemma transformFile_pair_witness :
  transformFile Demo.demo_ids "main.js" Demo.demo_text
  = ("abc "
     +:+ (replace "chunk_aaaaaaaa" (analyze "function f(a){return a;}")).1
     +:+ " def /* CODEMASK_START */ tail",
     [(replace "chunk_aaaaaaaa" (analyze "function f(a){return a;}")).2]).
Proof.
  refine (eq_trans (proj1 (transformFile_pair Demo.demo_ids "main.js" "abc "
                             " function f(a){return a;} "
                             " def /* CODEMASK_START */ tail" _ _)) _).
  - vm_compute. reflexivity.
  - vm_compute. reflexivity.
  - vm_compute. reflexivity.
Defined.

(** A text made of marker pairs, each standing where a reader sees it,
    and a tail without a start marker is masked piece by piece: every
    verbatim piece is kept as it is, every pair is replaced by the stub of
    its fragment, and there are exactly as many chunks as pairs. *)
Theorem transformFile_doc (nanoid : nat → string) (relativePath : string)
    (segs : list (string * string)) (tail : string) :
  well_marked segs tail →
  transformFile nanoid relativePath (doc segs tail) = masked nanoid segs tail
  ∧ length (transformFile nanoid relativePath (doc segs tail)).2
    = length segs.
Proof.
  intros Hw.
  assert (H : transformFile nanoid relativePath (doc segs tail)
              = masked nanoid segs tail).
  { revert nanoid Hw. induction segs as [|[pre frag] segs IH]; intros nanoid Hw.
    - simpl in *. unfold transformFile. by rewrite Hw.
    - destruct Hw as (Hs & He & Hw). cbn [doc masked].
      rewrite scan_pair; [|exact Hs|exact He]. cbn zeta.
      by rewrite (IH (fun k => nanoid (S k)) Hw). }
  split; [done|]. rewrite H. clear. revert nanoid.
  induction segs as [|[pre frag] segs IH]; intros nanoid; [done|].
  cbn [masked snd length]. by rewrite IH.
Qed.

Lemma transformFile_doc_witness :
  length (transformFile Demo.demo_ids "main.js"
            (doc [("a = 1; ", " function f(a){return a;} ");
                  (" b = 2; ", " const T = [1]; ")] " c = 3;")).2
  = 2.
Proof.
  apply (proj2 (transformFile_doc Demo.demo_ids "main.js"
                  [("a = 1; ", " function f(a){return a;} ");
                   (" b = 2; ", " const T = [1]; ")] " c = 3;"
                  ltac:(repeat split))).
Defined.

End ScannerFiles.

(** ** Client loader: errors, repeated [init], stale entries *)

Section LoaderMore.
Import Sdk SdkRuns Demo.
Context {Value : Type}.
Variable newFunction : string → option Value.
Variable call : Value → option Value.
Variable encodeURIComponent : string → string.

Lemma loader_eta (l : @Loader Value) :
  initialized l = true →
  mkLoader (state l) true (waiters l) (readyResolved l) (exposed l) = l.
Proof. destruct l. simpl. by intros ->. Qed.

(** A [load] on an uninitialized loader is the step of the run; a [load] on
    an initialized one, run to the settlement of its promise, is the step
    of the run followed at once by the answer to the request it sent. *)
Lemma load_as_calls (net : string → FetchResult) (chunkId : string)
    (r : @Run Value) :
  let r' := step newFunction call encodeURIComponent (CallLoad chunkId) r in
  let u := url encodeURIComponent (state (loader r)) chunkId in
  (load newFunction call encodeURIComponent net chunkId (loader r)).1.1
  = if initialized (loader r) then
      loader (step newFunction call encodeURIComponent
                (Settle (net u) (length (inflight r))) r')
    else loader r'.
Proof.
  cbn zeta. destruct (initialized (loader r)) eqn:Hi;
    [|unfold load, step; cbn zeta; by rewrite Hi].
  unfold load, _loadImpl, step, enter. cbn zeta. rewrite Hi.
  destruct (cache (state (loader r)) !! chunkId) as [v|] eqn:Hc;
    cbn [inflight loader fst snd].
  - rewrite app_nil_r, lookup_ge_None_2 by done. by apply loader_eta.
  - rewrite lookup_app_r, Nat.sub_diag by done.
    cbn [lookup list_lookup req_chunkId loader]. rewrite Hi.
    destruct (net _) as [|[] [d|]]; cbn [settled fst snd]; try done.
    destruct (kind d =? "function")%string.
    + by destruct (newFunction ("return " +:+ code d) ≫= call).
    + by destruct (newFunction (code d)).
Qed.

Lemma step_invariant (cl : Call) (r : @Run Value) :
  let l := loader r in
  (initialized l = true → waiters l = []) →
  readyResolved l = initialized l → exposed l = initialized l →
  let l' := loader (step newFunction call encodeURIComponent cl r) in
  (initialized l' = true → waiters l' = [])
  ∧ readyResolved l' = initialized l' ∧ exposed l' = initialized l'
  ∧ (initialized l = true → initialized l' = true).
Proof.
  cbn zeta. intros Hw Hr He.
  destruct cl as [opts|chunkId|answer n]; cbn [step]; cbn zeta.
  - done.
  - destruct (initialized (loader r)) eqn:Hi; cbn; [by rewrite Hi|].
    rewrite Hr, He. done.
  - by destruct (inflight r !! n).
Qed.

Lemma after_invariant (calls : list Call) :
  let l := loader (after newFunction call encodeURIComponent calls) in
  (initialized l = true → waiters l = [])
  ∧ readyResolved l = initialized l ∧ exposed l = initialized l.
Proof.
  unfold after. induction calls as [|cl calls IH] using rev_ind; [done|].
  rewrite fold_left_app. cbn [fold_left]. destruct IH as (Hw & Hr & He).
  destruct (step_invariant cl _ Hw Hr He) as (? & ? & ? & _). done.
Qed.

(** However calls of [init] and [load] and the answers to the requests
    under way follow one another on the script, once the loader is
    initialized its queue is empty, and the readiness handle is resolved and
    the state exposed exactly when it is initialized.  So an [init] on an
    initialized loader sends no request: it overwrites the settings, keeps
    the cache, repeats the three signals and leaves the requests under way
    as they are. *)
Theorem reinit_signals_only (calls : list Call) (opts : Opts) :
  let r := after newFunction call encodeURIComponent calls in
  let l := loader r in
  (initialized l = true → waiters l = [])
  ∧ readyResolved l = initialized l ∧ exposed l = initialized l
  ∧ (initialized l = true →
     init encodeURIComponent opts l
     = (mkLoader (mkState (opts_baseUrl opts) (opts_projectId opts)
                   (opts_key opts) (cache (state l))) true [] true true,
        [ReadyResolved; Dispatched "CodeMaskReady"; StateExposed])
     ∧ inflight (step newFunction call encodeURIComponent (CallInit opts) r)
       = inflight r).
Proof.
  cbn zeta. destruct (after_invariant calls) as (Hw & Hr & He).
  split; [done|]. split; [done|]. split; [done|].
  intros Hi. unfold init, step. cbn. rewrite (Hw Hi). cbn.
  by rewrite app_nil_r.
Qed.

(** A [load] that fails leaves the loader as it was, so nothing about the
    failure is remembered and the next [load] of the id asks the server
    again.  A reply that is not ok is reported as "Failed to load chunk"
    followed by the id. *)
Theorem load_failure_not_cached (net : string → FetchResult)
    (chunkId : string) (l : @Loader Value) :
  let r := load newFunction call encodeURIComponent net chunkId l in
  let u := url encodeURIComponent (state l) chunkId in
  initialized l = true →
  ((∀ v, r.2 ≠ Some (Returned v)) →
   r.1.1 = l ∧ r.1.2 = [Fetch u] ∧ cache (state l) !! chunkId = None)
  ∧ (∀ d, cache (state l) !! chunkId = None → net u = Reply false d →
     r = (l, [Fetch u],
          Some (LoadError ("Failed to load chunk " +:+ chunkId)))).
Proof.
  intros r u Hi. unfold r, load, _loadImpl. rewrite Hi. fold u. split.
  - destruct (cache (state l) !! chunkId) as [v|];
      [intros H; by destruct (H v)|].
    destruct (net u) as [|[] [d|]]; cbn; intros H;
      try (by rewrite loader_eta).
    destruct (kind d =? "function")%string.
    + destruct (newFunction ("return " +:+ code d) ≫= call) as [fn|];
        cbn in *; [by destruct (H fn)|by rewrite loader_eta].
    + destruct (newFunction (code d)) as [fn|];
        cbn in *; [by destruct (H fn)|by rewrite loader_eta].
  - intros d -> ->. cbn. by rewrite loader_eta.
Qed.

(** The cache is keyed by the chunk id alone and [init] keeps it: a value
    cached before a second [init] is returned after it without a request,
    also when that [init] names another server, project or key. *)
Theorem cache_survives_init (net : string → FetchResult) (chunkId : string)
    (l : @Loader Value) (v : Value) (opts : Opts) :
  cache (state l) !! chunkId = Some v →
  load newFunction call encodeURIComponent net chunkId
    (init encodeURIComponent opts l).1
  = ((init encodeURIComponent opts l).1, [], Some (Returned v)).
Proof.
  intros Hc. unfold load, _loadImpl, init. cbn. by rewrite Hc.
Qed.

(** Requests queued before [init] are sent when [init] runs, in the order of
    the [load] calls, to the server, project and key given to that [init]. *)
Theorem queued_loads_use_init_opts (net : string → FetchResult)
    (ids : list string) (opts : Opts) :
  (init encodeURIComponent opts
     (loads newFunction call encodeURIComponent net ids initial)).2
  = ([ReadyResolved]
     ++ flat_map
          (fun id =>
             [WaiterCalled id;
              Fetch (opts_baseUrl opts +:+ "/api/fetch/"
                     +:+ opts_projectId opts +:+ "/" +:+ id +:+ "?key="
                     +:+ encodeURIComponent (opts_key opts))]) ids
     ++ [Dispatched "CodeMaskReady"; StateExposed])%list.
Proof.
  assert (H : ∀ l : @Loader Value,
            initialized l = false →
            state (loads newFunction call encodeURIComponent net ids l)
            = state l).
  { induction ids as [|c ids' IH]; intros l Hi; [done|]. cbn [loads].
    replace (load newFunction call encodeURIComponent net c l).1.1
      with (mkLoader (state l) false (waiters l ++ [c]) (readyResolved l)
              (exposed l))
      by (unfold load; by rewrite Hi).
    by rewrite IH. }
  destruct (loads_queue newFunction call encodeURIComponent net ids initial
              eq_refl) as [_ Hq].
  unfold init. cbn [snd]. rewrite Hq, (H initial eq_refl). cbn [waiters app].
  do 2 f_equal.
Qed.

End LoaderMore.

Lemma reinit_signals_only_witness :
  (Sdk.init Demo.encode (Sdk.mkOpts "http://other" "q" "k2")
     (SdkRuns.loader
        (SdkRuns.after Demo.compile Demo.invoke Demo.encode
           Samples.demo_calls))).2
  = [Sdk.ReadyResolved; Sdk.Dispatched "CodeMaskReady"; Sdk.StateExposed]
  ∧ Sdk.cache
      (Sdk.state
         (SdkRuns.loader
            (SdkRuns.after Demo.compile Demo.invoke Demo.encode
               Samples.demo_calls)))
    = <["c2" := "return (x) => { return x*2; }"]>
        (<["c1" := "return (x) => { return x*2; }"]> ∅).
Proof.
  split; [|by vm_compute].
  rewrite (proj1 (proj2 (proj2 (proj2
             (reinit_signals_only Demo.compile Demo.invoke Demo.encode
                Samples.demo_calls (Sdk.mkOpts "http://other" "q" "k2"))))
             eq_refl)).
  reflexivity.
Defined.

Lemma load_failure_not_cached_witness :
  Sdk.load Demo.compile Demo.invoke Demo.encode
    (fun _ => Sdk.Reply false None) "c1" Demo.ready_loader
  = (Demo.ready_loader,
     [Sdk.Fetch "http://localhost:5050/api/fetch/p/c1?key=k"],
     Some (Sdk.LoadError "Failed to load chunk c1")).
Proof.
  apply (proj2 (load_failure_not_cached Demo.compile Demo.invoke Demo.encode
                  (fun _ => Sdk.Reply false None) "c1" Demo.ready_loader
                  eq_refl) None eq_refl eq_refl).
Defined.

Lemma cache_survives_init_witness :
  (Sdk.load Demo.compile Demo.invoke Demo.encode Demo.raw_net "c1"
     (Sdk.init Demo.encode (Sdk.mkOpts "http://other" "q" "k2")
        (Sdk.load Demo.compile Demo.invoke Demo.encode Demo.function_net "c1"
           Demo.ready_loader).1.1).1).1.2
  = [].
Proof.
  rewrite (cache_survives_init Demo.compile Demo.invoke Demo.encode
             Demo.raw_net "c1"
             (Sdk.load Demo.compile Demo.invoke Demo.encode Demo.function_net
                "c1" Demo.ready_loader).1.1
             "return (x) => { return x*2; }"
             (Sdk.mkOpts "http://other" "q" "k2") eq_refl).
  reflexivity.
Defined.

(** ** Upload: files, registry, fetch *)

Section UploadFacts.
Import ChunkStore Server Str Parser Upload.
Context {Buffer : Type}.
Variable toString : Buffer → string.
Variable extname : string → string.
Variable toLowerCase : string → string.

Lemma processLoop_spec (nanoid : nat → string) (files : list (File Buffer))
    (pf : list (File string)) (cs : list Chunk) :
  let r := processLoop toString extname toLowerCase nanoid files pf cs in
  (∃ rest, r.1 = (pf ++ rest)%list ∧ length rest = length files
     ∧ map relativePath rest = map relativePath files
     ∧ ∀ i f, files !! i = Some f → untouched toString extname toLowerCase f →
         rest !! i = Some (mkFile (relativePath f) (toString (content f))))
  ∧ (∃ more, r.2 = (cs ++ more)%list
       ∧ map chunkId more
         = map (fun k => "chunk_" +:+ nanoid (length cs + k))
             (seq 0 (length more))
       ∧ ((∀ f, f ∈ files → untouched toString extname toLowerCase f) →
          more = [])).
Proof.
  revert pf cs. induction files as [|f files IH]; intros pf cs; cbn zeta.
  - split; [exists []|exists []]; simpl; rewrite ?app_nil_r; done.
  - cbn [processLoop].
    destruct (maybeText (toLowerCase (extname (relativePath f)))) eqn:Hext;
      cbn [negb].
    + destruct (transformFile (fun k => nanoid (length cs + k))
                  (relativePath f) (toString (content f)))
        as [out fileChunks] eqn:Ht.
      destruct (IH (pf ++ [mkFile (relativePath f) out])%list
                  (cs ++ fileChunks)%list)
        as [(rest & Hr & Hlen & Hpaths & Hun) (more & Hm & Hids & Hnone)].
      split.
      * exists (mkFile (relativePath f) out :: rest).
        rewrite Hr, <- app_assoc. split; [done|]. split; [simpl; lia|].
        split; [simpl; by rewrite Hpaths|].
        intros [|i] g Hg Hu; simpl in *; [|by apply Hun].
        injection Hg as <-. destruct Hu as [Hu|Hu]; [congruence|].
        unfold transformFile in Ht. rewrite Hu in Ht. simpl in Ht.
        by injection Ht as <- _.
      * exists (fileChunks ++ more)%list. rewrite Hm, <- app_assoc.
        split; [done|]. split.
        -- pose proof (chunk_ids_eq (fun k => nanoid (length cs + k))
                         (relativePath f) (toString (content f))) as Hf.
           rewrite Ht in Hf. simpl in Hf.
           rewrite map_app, length_app, seq_app, map_app, Hf, Hids.
           f_equal. rewrite length_app.
           replace (0 + length fileChunks) with (length fileChunks + 0) by lia.
           rewrite <- fmap_add_seq.
           change (Nat.add (length fileChunks) <$> seq 0 (length more))
             with (map (Nat.add (length fileChunks)) (seq 0 (length more))).
           rewrite map_map. apply map_ext. intros k. by rewrite Nat.add_assoc.
        -- intros Hall. rewrite Hnone.
           ++ rewrite app_nil_r.
              destruct (Hall f) as [Hu|Hu]; [by left|congruence|].
              unfold transformFile in Ht. rewrite Hu in Ht. simpl in Ht.
              by injection Ht as _ <-.
           ++ intros g Hg. apply Hall. by right.
    + destruct (IH (pf ++ [mkFile (relativePath f) (toString (content f))])%list
                  cs)
        as [(rest & Hr & Hlen & Hpaths & Hun) (more & Hm & Hids & Hnone)].
      split.
      * exists (mkFile (relativePath f) (toString (content f)) :: rest).
        rewrite Hr, <- app_assoc. split; [done|]. split; [simpl; lia|].
        split; [simpl; by rewrite Hpaths|].
        intros [|i] g Hg Hu; simpl in *; [|by apply Hun].
        by injection Hg as <-.
      * exists more. split; [done|]. split; [done|].
        intros Hall. apply Hnone. intros g Hg. apply Hall. by right.
Qed.

(** [processFiles] returns the files under the same paths in the same
    order; a file of another extension, or without a start marker, comes
    back with its decoded text unchanged; the chunk ids of the whole upload
    are "chunk_" followed by the values of [nanoid] in the order of the
    calls; and when no file is touched there is no chunk. *)
Theorem processFiles_files (nanoid : nat → string)
    (files : list (File Buffer)) :
  let r := processFiles toString extname toLowerCase nanoid files in
  map relativePath r.1 = map relativePath files
  ∧ (∀ i f, files !! i = Some f →
       untouched toString extname toLowerCase f →
       r.1 !! i = Some (mkFile (relativePath f) (toString (content f))))
  ∧ map chunkId r.2
    = map (fun k => "chunk_" +:+ nanoid k) (seq 0 (length r.2))
  ∧ ((∀ f, f ∈ files → untouched toString extname toLowerCase f) →
     r.2 = []).
Proof.
  cbn zeta. unfold processFiles.
  destruct (processLoop_spec nanoid files [] [])
    as [(rest & Hr & _ & Hpaths & Hun) (more & Hm & Hids & Hnone)].
  simpl in Hr, Hm. rewrite Hr, Hm. split; [done|]. split; [done|].
  split; [exact Hids|done].
Qed.

Lemma putChunks_spec (projectId : string) (chunks : list Chunk) :
  ∀ (store : Store) (proj : Project),
    store !! projectId = Some proj →
    ∃ proj',
      putChunks projectId chunks store = inr (<[projectId := proj']> store)
      ∧ key proj' = key proj
      ∧ (∀ id, id ∉ map chunkId chunks →
           ChunkStore.chunks proj' !! id = ChunkStore.chunks proj !! id)
      ∧ (NoDup (map chunkId chunks) →
         ∀ c, c ∈ chunks →
           ChunkStore.chunks proj' !! chunkId c = Some (meta c)).
Proof.
  induction chunks as [|c0 chunks IH]; intros store proj Hp.
  - exists proj. simpl. rewrite insert_id by done.
    split; [done|]. split; [done|]. split; [done|].
    intros _ c Hc. by apply elem_of_nil in Hc.
  - cbn [putChunks]. unfold putChunk, map_get. rewrite Hp.
    destruct (IH (<[projectId :=
                      mkProject (key proj)
                        (<[chunkId c0 := meta c0]> (ChunkStore.chunks proj))]>
                    store)
                (mkProject (key proj)
                   (<[chunkId c0 := meta c0]> (ChunkStore.chunks proj))))
      as (proj' & Hput & Hkey & Hout & Hin); [apply lookup_insert_eq|].
    exists proj'. rewrite Hput, insert_insert_eq.
    split; [done|]. split; [done|]. split.
    + intros id Hid. cbn [map] in Hid. apply not_elem_of_cons in Hid as [? ?].
      rewrite Hout by done. simpl. by rewrite lookup_insert_ne.
    + intros Hnd c Hc. cbn [map] in Hnd. apply NoDup_cons in Hnd as [Hc0 Hnd].
      apply elem_of_cons in Hc as [->|Hc]; [|by apply Hin].
      rewrite Hout by done. simpl. apply lookup_insert_eq.
Qed.

(** When [nanoid] never returns the same value twice, the upload handler's
    registration does not throw, leaves every other project as it was, and
    makes every chunk of the upload fetchable with the key of the upload:
    the answer is 200, with the function source for "decl" and "arrow"
    chunks and the original text for the others; an id that is not a chunk
    of the upload is answered "Chunk not found". *)
Theorem register_then_fetch (projectId envKey : string)
    (nanoid : nat → string) (files : list (File Buffer)) (store : Store) :
  (∀ i j, nanoid i = nanoid j → i = j) →
  let chunks := (processFiles toString extname toLowerCase nanoid files).2 in
  ∃ store',
    register toString extname toLowerCase projectId envKey nanoid files store
    = inr store'
    ∧ (∀ other, other ≠ projectId → store' !! other = store !! other)
    ∧ (∀ c, c ∈ chunks →
         fetch store' projectId (chunkId c) (Some envKey)
         = if ((ChunkStore.type (meta c) =? "decl")
               || (ChunkStore.type (meta c) =? "arrow"))%string
           then mkResponse 200
                  [("ok", JBool true); ("kind", JStr "function");
                   ("name", json_of_name (ChunkStore.name (meta c)));
                   ("code", JStr (funcSource (meta c)))]
           else mkResponse 200
                  [("ok", JBool true); ("kind", JStr "raw");
                   ("code", JStr (ChunkStore.original (meta c)))])
    ∧ (∀ id, id ∉ map chunkId chunks →
         fetch store' projectId id (Some envKey)
         = mkResponse 404 [("error", JStr "Chunk not found")]).
Proof.
  intros Hinj chunks. unfold register. fold chunks.
  destruct (putChunks_spec projectId chunks
              (createProject projectId envKey store) (mkProject envKey ∅))
    as (proj' & Hput & Hkey & Hout & Hin); [apply lookup_insert_eq|].
  assert (Hnd : NoDup (map chunkId chunks)).
  { destruct (processLoop_spec nanoid files [] [])
      as [_ (more & Hm & Hids & _)].
    unfold chunks, processFiles. simpl in Hm. rewrite Hm, Hids.
    apply NoDup_fmap_2; [|apply NoDup_seq].
    intros i j Hij. by apply Hinj, chunk_prefix_inj. }
  eexists. split; [exact Hput|]. unfold createProject.
  rewrite insert_insert_eq. split; [|split].
  - intros other Hne. by rewrite lookup_insert_ne.
  - intros c Hc. unfold fetch, getProject, getChunk, map_get.
    rewrite lookup_insert_eq, Hkey. simpl.
    rewrite bool_decide_eq_true_2 by done. simpl.
    by rewrite (Hin Hnd c Hc).
  - intros id Hid. unfold fetch, getProject, getChunk, map_get.
    rewrite lookup_insert_eq, Hkey. simpl.
    rewrite bool_decide_eq_true_2 by done. simpl.
    by rewrite (Hout id Hid).
Qed.

End UploadFacts.

Lemma unary_ids_inj (i j : nat) :
  Samples.unary_ids i = Samples.unary_ids j → i = j.
Proof.
  unfold Samples.unary_ids. revert j.
  induction i as [|i IH]; intros [|j]; simpl; try done.
  intros H. f_equal. apply IH. by injection H.
Qed.

Lemma processFiles_files_witness :
  (Upload.processFiles Samples.same Samples.demo_extname Samples.same Samples.unary_ids
     Samples.demo_files).1 !! 1
  = Some (Upload.mkFile "style.css" "body { /* CODEMASK_START */ }").
Proof.
  apply (proj1 (proj2 (processFiles_files Samples.same Samples.demo_extname
                         Samples.same Samples.unary_ids Samples.demo_files))
           1 (Upload.mkFile "style.css" "body { /* CODEMASK_START */ }")
           eq_refl).
  left. reflexivity.
Defined.

Lemma register_then_fetch_witness :
  ∃ store',
    Upload.register Samples.same Samples.demo_extname Samples.same "p2" "key2"
      Samples.unary_ids Samples.demo_files Demo.demo_store
    = inr store'
    ∧ store' !! "p" = Demo.demo_store !! "p".
Proof.
  destruct (register_then_fetch Samples.same Samples.demo_extname Samples.same
              "p2" "key2" Samples.unary_ids Samples.demo_files Demo.demo_store
              unary_ids_inj)
    as (store' & Hreg & Hother & _).
  exists store'. split; [exact Hreg|]. apply Hother. discriminate.
Defined.

Lemma analyze_shape_witness :
  Parser.params (Parser.analyze "const T = [1];") = ""
  ∧ Parser.body (Parser.analyze "const T = [1];") = "".
Proof.
  apply (proj2 (proj2 (proj2 (proj2 (proj2 (proj2
           (analyze_shape "const T = [1];"))))))).
  left. vm_compute. reflexivity.
Defined.

Lemma transformFile_chunk_shape_witness :
  (Parser.transformFile Demo.demo_ids "main.js" Demo.overlap_text).2 !! 0
  = Some (Parser.mkChunk "chunk_aaaaaaaa"
            (ChunkStore.mkChunkMeta "raw" None "" "" "x"))
  ∧ Str.trim "x" = "x".
Proof.
  assert (Hc : (Parser.transformFile Demo.demo_ids "main.js"
                  Demo.overlap_text).2 !! 0
               = Some (Parser.mkChunk "chunk_aaaaaaaa"
                         (ChunkStore.mkChunkMeta "raw" None "" "" "x")))
    by (vm_compute; reflexivity).
  split; [exact Hc|].
  destruct (Forall_lookup_1 _ _ 0 _
              (transformFile_chunk_shape Demo.demo_ids "main.js"
                 Demo.overlap_text) Hc) as (_ & _ & _ & H).
  exact H.
Defined.

(** ** Snippet classifier: assignments in general *)

Section ConstantGeneral.
Import Str Regex Parser Chars.

Lemma imp_alt_left (inp : string) (r1 r2 R : regex) (s : string) (i : nat)
    (c : Captures) (k : Cont) (x : Captures) :
  run inp (Seq r1 R) s i c k = Some x →
  run inp (Seq (Alt r1 r2) R) s i c k = Some x.
Proof. cbn [run]. intros H. by rewrite H. Qed.

Lemma imp_alt_right (inp l : string) (r2 R : regex) (s : string) (i : nat)
    (c : Captures) (k : Cont) (x : Captures) :
  String.prefix l s = false →
  run inp (Seq r2 R) s i c k = Some x →
  run inp (Seq (Alt (Lit l) r2) R) s i c k = Some x.
Proof. cbn [run]. intros -> H. by rewrite H. Qed.

(** A greedy star takes a run of characters of its class that is followed
    by a character outside the class, when the rest of the pattern then
    matches. *)
Lemma imp_star_all (inp : string) (p : ascii → bool) (R : regex)
    (a : string) (b : ascii) (t : string) (i : nat) (c : Captures) (k : Cont)
    (x : Captures) :
  every p a = true → p b = false →
  run inp R (String b t) (i + String.length a) c k = Some x →
  run inp (Seq (Rep true p) R) (a +:+ String b t) i c k = Some x.
Proof.
  intros Ha Hb H. cbn [run]. apply rep_greedy_all; [done|].
  cbn [rep_greedy]. by rewrite Hb.
Qed.

(** A lazy star whose continuation accepts the end of the input stops at
    the first place that the continuation accepts. *)
Lemma rep_lazy_complete (p : ascii → bool) (s : string) (i : nat)
    (c : Captures) (k : Cont) :
  every p s = true →
  is_Some (k "" (i + String.length s) c) →
  ∃ n x, rep_lazy p s i c k = Some x ∧ k (drop n s) (i + n) c = Some x.
Proof.
  revert i. induction s as [|a s IH]; intros i Hp [x0 Hk].
  - rewrite Nat.add_0_r in Hk. exists 0, x0. cbn [rep_lazy].
    rewrite Nat.add_0_r, Hk. done.
  - cbn [rep_lazy]. destruct (k (String a s) i c) as [x|] eqn:Hs.
    + exists 0, x. by rewrite Nat.add_0_r.
    + simpl in Hp. apply andb_true_iff in Hp as [Ha Hp]. rewrite Ha.
      destruct (IH (S i) Hp) as (n & x & Hx & Hn).
      { exists x0. by replace (S i + String.length s)
          with (i + String.length (String a s)) by (simpl; lia). }
      exists (S n), x. split; [done|].
      by replace (i + S n) with (S i + n) by lia.
Qed.

(** The end of the assignment pattern, an optional semicolon and white
    space up to the end of the input, adds no capture. *)
Lemma assignment_end (inp s : string) (i : nat) (c x : Captures) :
  run inp (Seq (Opt (Lit ";")) (Seq (Rep true space) Eol)) s i c
    (fun _ _ c' => Some c') = Some x →
  x = c.
Proof.
  cbn [run]. intros H. apply orelse_Some in H as [H|[_ H]].
  - destruct (String.prefix ";" s); [|done].
    apply rep_greedy_sound in H as (n & _ & H).
    destruct (drop n _); by simplify_eq.
  - apply rep_greedy_sound in H as (n & _ & H).
    destruct (drop n _); by simplify_eq.
Qed.

Lemma length_trimStart (s : string) :
  String.length (trimStart s) ≤ String.length s
  ∧ (String.length (trimStart s) = String.length s → trimStart s = s).
Proof.
  induction s as [|a s [IH1 IH2]]; [done|]. cbn [trimStart].
  destruct (is_space a); [|done].
  change (String.length (String a s)) with (S (String.length s)).
  split; [lia|]. lia.
Qed.

Lemma length_trimEnd (s : string) :
  String.length (trimEnd s) ≤ String.length s.
Proof.
  induction s as [|a s IH]; [done|]. cbn [trimEnd].
  destruct (trimEnd s) as [|d t].
  - destruct (is_space a); simpl; lia.
  - simpl in *. lia.
Qed.

(** A non-empty text that is its own trim starts with a character that is
    not white space, and trimming its end changes nothing. *)
Lemma trimmed_ends (s : string) :
  s ≠ "" → trim s = s →
  trimEnd s = s ∧ ∃ a t, s = String a t ∧ is_space a = false.
Proof.
  intros Hne Ht. unfold trim in Ht.
  assert (Hs : trimStart s = s).
  { apply length_trimStart.
    pose proof (length_trimEnd (trimStart s)) as H1.
    pose proof (proj1 (length_trimStart s)) as H2.
    rewrite Ht in H1. lia. }
  rewrite Hs in Ht. split; [done|].
  destruct s as [|a t]; [done|]. exists a, t. split; [done|].
  cbn [trimStart] in Hs. destruct (is_space a) eqn:Ha; [|done].
  pose proof (proj1 (length_trimStart t)) as H. rewrite Hs in H.
  simpl in H. lia.
Qed.

Lemma trimEnd_app (a s : string) :
  s ≠ "" → trimEnd s = s → trimEnd (a +:+ s) = a +:+ s.
Proof.
  intros Hne Hs. induction a as [|x a IH]; [done|].
  change (trimEnd (String x (a +:+ s)) = String x (a +:+ s)).
  cbn [trimEnd]. rewrite IH. destruct a; [by destruct s|done].
Qed.

Lemma group_lazy_plus (inp : string) (g : nat) (p : ascii → bool)
    (R : regex) (a : ascii) (s : string) (i : nat) (c : Captures) (k : Cont) :
  run inp (Seq (Group g (Seq (Cls p) (Rep false p))) R) (String a s) i c k
  = if p a
    then rep_lazy p s (S i) c
           (fun s' i' c' => run inp R s' i' ((g, slice inp i i') :: c') k)
    else None.
Proof. done. Qed.

(** One step of the matcher under "there is a match whose captures are
    such and such". *)
Ltac step_ex G lem :=
  let x := fresh "x" in
  let H := fresh "H" in
  let HG := fresh "HG" in
  eenough (∃ x : Captures, _ = Some x ∧ G x) as (x & H & HG);
  [exists x; split; [lem; exact H | exact HG] | ].

(** The assignment pattern on [keyword name = value]. *)
Lemma constant_matches (keyword : string) (n0 : ascii) (name' : string)
    (v0 : ascii) (value' : string) :
  keyword = "const" ∨ keyword = "let" →
  every ident (String n0 name') = true →
  is_space v0 = false →
  ∃ m,
    exec constantRe (keyword +:+ " " +:+ String n0 name' +:+ " = "
                     +:+ String v0 value')
    = Some m
    ∧ group m 1 = Some (String n0 name').
Proof.
  intros Hkw Hn Hv.
  pose proof Hn as Hn0. simpl in Hn0. apply andb_true_iff in Hn0 as [Hn0 _].
  pose proof (ident_not_space n0 Hn0) as Hn0'.
  set (G := fun x : Captures => group x 1 = Some (String n0 name')).
  step_ex G ltac:(unfold exec; apply exec_from_first).
  unfold constantRe. cbn [seq]. unfold plus, star, lazy_plus.
  step_ex G ltac:(apply imp_bol).
  destruct Hkw as [-> | ->].
  - step_ex G ltac:(apply imp_alt_left, (imp_lit _ "const")).
    step_ex G ltac:(apply imp_plus_one; [reflexivity|exact Hn0'|]).
    step_ex G ltac:(apply (step_group_plus _ 1 ident _ n0 " "%char name');
                    [exact Hn|reflexivity|]).
    step_ex G ltac:(apply (imp_star_all _ space _ " " "="%char);
                    [reflexivity|reflexivity|]).
    step_ex G ltac:(apply (imp_lit _ "=")).
    step_ex G ltac:(apply (imp_star_all _ space _ " " v0);
                    [reflexivity|exact Hv|]).
    rewrite group_lazy_plus, any_true.
    match goal with
    | |- ∃ x, rep_lazy ?p ?s ?i ?c ?k = Some x ∧ _ =>
        destruct (rep_lazy_complete p s i c k) as (n & x & Hx & Hstop);
          [apply every_any|by eexists|]
    end.
    apply assignment_end in Hstop. exists x. split; [exact Hx|].
    unfold G. rewrite Hstop. cbn [group Nat.eqb]. f_equal.
    apply (slice_mid "const " (String n0 name')). reflexivity.
  - step_ex G ltac:(apply imp_alt_right; [reflexivity|];
                    apply (imp_lit _ "let")).
    step_ex G ltac:(apply imp_plus_one; [reflexivity|exact Hn0'|]).
    step_ex G ltac:(apply (step_group_plus _ 1 ident _ n0 " "%char name');
                    [exact Hn|reflexivity|]).
    step_ex G ltac:(apply (imp_star_all _ space _ " " "="%char);
                    [reflexivity|reflexivity|]).
    step_ex G ltac:(apply (imp_lit _ "=")).
    step_ex G ltac:(apply (imp_star_all _ space _ " " v0);
                    [reflexivity|exact Hv|]).
    rewrite group_lazy_plus, any_true.
    match goal with
    | |- ∃ x, rep_lazy ?p ?s ?i ?c ?k = Some x ∧ _ =>
        destruct (rep_lazy_complete p s i c k) as (n & x & Hx & Hstop);
          [apply every_any|by eexists|]
    end.
    apply assignment_end in Hstop. exists x. split; [exact Hx|].
    unfold G. rewrite Hstop. cbn [group Nat.eqb]. f_equal.
    apply (slice_mid "let " (String n0 name')). reflexivity.
Qed.

(** For every identifier [name] and every non-empty value text without
    white space at either end, [const name = value] and [let name = value]
    are classified "constant" with that name, as long as the text has no
    [=>] in it: the value is not looked into, and params and body stay
    empty. *)
Theorem analyze_assignment (keyword name value : string) :
  keyword = "const" ∨ keyword = "let" →
  name ≠ "" → every ident name = true →
  value ≠ "" → trim value = value →
  let text := keyword +:+ " " +:+ name +:+ " = " +:+ value in
  includes text "=>" = false →
  analyze text = mkInfo "constant" (Some name) "" "" text.
Proof.
  intros Hkw Hne Hn Hve Hvt text Hin.
  destruct name as [|n0 name']; [done|].
  destruct (trimmed_ends value Hve Hvt) as [Hend (v0 & value' & -> & Hv0)].
  destruct (constant_matches keyword n0 name' v0 value' Hkw Hn Hv0)
    as (m & Hm & Hg).
  fold text in Hm.
  assert (Ht : trim text = text).
  { unfold trim.
    assert (Hs : trimStart text = text) by (by destruct Hkw as [-> | ->]).
    rewrite Hs. unfold text.
    replace (keyword +:+ " " +:+ String n0 name' +:+ " = "
             +:+ String v0 value')
      with ((keyword +:+ " " +:+ String n0 name' +:+ " = ")
            +:+ String v0 value') by (by rewrite !append_assoc).
    by apply trimEnd_app. }
  assert (Hd : exec declRe text = None).
  { destruct (exec declRe text) as [d|] eqn:Hd; [|done].
    apply decl_keyword in Hd. by destruct Hkw as [-> | ->], Hd. }
  assert (Ha : exec arrowRe text = None).
  { destruct (exec arrowRe text) as [a|] eqn:Ha; [|done].
    apply arrow_has_arrow in Ha. congruence. }
  unfold analyze. rewrite Ht, Hd, Ha, Hm. unfold grp. rewrite Hg. simpl default.
  by rewrite (trim_ident _ Hn).
Qed.

Lemma analyze_assignment_witness :
  analyze "let secret = { a: [1, 2], b: f(3) };"
  = mkInfo "constant" (Some "secret") "" ""
      "let secret = { a: [1, 2], b: f(3) };".
Proof.
  apply (analyze_assignment "let" "secret" "{ a: [1, 2], b: f(3) };");
    (try discriminate); (try reflexivity). by right.
Defined.

End ConstantGeneral.
